(** * vector-cookbook: chunking, embedding and retrieval helpers

    A shallow embedding of the Python cells of
    [openai_pgvector_helloworld.ipynb] (tokenizer helper, chunking loop,
    embedding adapter, top-3 retrieval, answer synthesizer) and of the
    pgai notebook (source-table ingestion, context retrieval), together
    with the properties the specification states about them. *)

From Stdlib Require Import String Ascii.
From Stdlib Require Import List NArith Arith Lia Bool.
From Stdlib Require Import Sorting.Sorted Sorting.Permutation.
Import ListNotations.

Set Implicit Arguments.

(** ** Python strings

    A Python [str] is a sequence of Unicode code points.  The string
    methods the notebooks use are [split()] without arguments, [join],
    and [replace] with one-character arguments. *)

Definition codepoint := N.
Definition str := list codepoint.

(** A literal, written with a Rocq string of ASCII characters. *)
Definition lit (s : string) : str := map N_of_ascii (list_ascii_of_string s).

Definition SPACE : codepoint := 32%N.
Definition TAB : codepoint := 9%N.
Definition NEWLINE : codepoint := 10%N.

Definition in_range (lo hi c : codepoint) : bool :=
  (N.leb lo c && N.leb c hi)%bool.

Local Open Scope N_scope.

(** [str.isspace] on one code point: CPython's [_PyUnicode_IsWhitespace]. *)
Definition isspace (c : codepoint) : bool :=
  in_range 9 13 c || in_range 28 32 c
  || N.eqb c 133 || N.eqb c 160 || N.eqb c 5760
  || in_range 8192 8202 c
  || N.eqb c 8232 || N.eqb c 8233 || N.eqb c 8239
  || N.eqb c 8287 || N.eqb c 12288.

Local Close Scope N_scope.

Definition str_eqb (a b : str) : bool :=
  if list_eq_dec N.eq_dec a b then true else false.

(** [s.split()]: the words of [s] between runs of whitespace.  [cur] is
    the word being read; a word is emitted when whitespace or the end of
    the string follows it, so no emitted word is empty. *)
Fixpoint split_from (cur : str) (s : str) : list str :=
  match s with
  | [] => match cur with [] => [] | _ :: _ => [cur] end
  | c :: rest =>
      if isspace c
      then match cur with
           | [] => split_from [] rest
           | _ :: _ => cur :: split_from [] rest
           end
      else split_from (cur ++ [c]) rest
  end.

Definition split (s : str) : list str := split_from [] s.

(** [sep.join(l)]. *)
Fixpoint join (sep : str) (l : list str) : str :=
  match l with
  | [] => []
  | x :: rest =>
      match rest with
      | [] => x
      | _ :: _ => x ++ sep ++ join sep rest
      end
  end.

(** [l[start:stop]] for non-negative indices: the elements at positions
    [start <= i < min stop (len l)], none when [stop <= start]. *)
Definition slice {A} (l : list A) (start stop : nat) : list A :=
  firstn (stop - start) (skipn start l).

(** [s.replace(old, new)] where [old] and [new] are one character each. *)
Definition replace (old new : codepoint) (s : str) : str :=
  map (fun c => if N.eqb c old then new else c) s.

(** Truth value of an optional string: [None] and [""] are falsy. *)
Definition truthy (string : option str) : bool :=
  match string with
  | None => false
  | Some [] => false
  | Some (_ :: _) => true
  end.

Definition text_of (string : option str) : str :=
  match string with None => [] | Some s => s end.

(** A word as [split] yields them: not empty and free of whitespace. *)
Definition is_word (w : str) : Prop :=
  w <> [] /\ Forall (fun c => isspace c = false) w.

(** ** Tokenizer helper and chunking loop (cells 11 and 13) *)

Definition token := N.

Record document := { title : str; content : str; url : str }.

(** One entry [[title, content, url, token_len]] of [new_list]. *)
Record chunk := {
  chunk_title : str;
  chunk_content : str;
  chunk_url : str;
  chunk_tokens : nat
}.

Definition cl100k_base : str := lit "cl100k_base".

Definition ideal_token_size : nat := 512.

(** [int(ideal_token_size // (4/3))].  In binary64 [4/3] is
    6004799503160661 / 2^52, just below four thirds, and the floor
    division of 512 by it is 384.0. *)
Definition ideal_size : nat := 384.

(** The number of iterations computed before the inner loop. *)
Definition chunk_count (total_words : nat) : nat :=
  let chunks := total_words / ideal_size in
  if negb (total_words mod ideal_size =? 0) then chunks + 1 else chunks.

(** [ceil(a / b)] as the specification writes it. *)
Definition ceil_div (a b : nat) : nat := (a + b - 1) / b.

(** The variables the inner [for j in range(chunks)] loop updates. *)
Record loop_state := {
  start : nat;
  end_ : nat;
  new_content : list str;
  new_list : list chunk
}.

Section Chunker.

(** [tiktoken.get_encoding(name).encode]: the tokenizer is an external
    library, taken here as a total function of the encoding name and
    the text. *)
Variable get_encoding : str -> str -> list token.

Definition num_tokens_from_string (string : option str) (encoding_name : str) : nat :=
  if negb (truthy string) then 0
  else
    let encoding := get_encoding encoding_name in
    let num_tokens := length (encoding (text_of string)) in
    num_tokens.

(** The body of the inner loop. *)
Definition chunk_step (d : document) (words : list str) (total_words : nat)
           (st : loop_state) : loop_state :=
  let end1 := if total_words <? end_ st then total_words else end_ st in
  let new_content := slice words (start st) end1 in
  let new_content_string := join [SPACE] new_content in
  let new_content_token_len :=
    num_tokens_from_string (Some new_content_string) cl100k_base in
  let new_list :=
    if 0 <? new_content_token_len
    then new_list st ++ [ {| chunk_title := title d;
                             chunk_content := new_content_string;
                             chunk_url := url d;
                             chunk_tokens := new_content_token_len |} ]
    else new_list st in
  {| start := start st + ideal_size;
     end_ := end1 + ideal_size;
     new_content := new_content;
     new_list := new_list |}.

(** The state after [j] iterations of the inner loop. *)
Definition chunk_loop (d : document) (words : list str) (new_list0 : list chunk)
           (j : nat) : loop_state :=
  Nat.iter j (chunk_step d words (length words))
           {| start := 0; end_ := ideal_size; new_content := [];
              new_list := new_list0 |}.

(** The words the chunker slices: [text.split()] followed by the filter
    [[x for x in words if x != ' ']]. *)
Definition chunk_words (text : str) : list str :=
  let words := split text in
  filter (fun x => negb (str_eqb x [SPACE])) words.

(** The body of the outer loop for one row of the dataframe. *)
Definition chunk_document (d : document) (new_list0 : list chunk) : list chunk :=
  let text := content d in
  let token_len := num_tokens_from_string (Some text) cl100k_base in
  if token_len <=? 512
  then new_list0 ++ [ {| chunk_title := title d;
                         chunk_content := content d;
                         chunk_url := url d;
                         chunk_tokens := token_len |} ]
  else
    let words := chunk_words text in
    let total_words := length words in
    let chunks := chunk_count total_words in
    new_list (chunk_loop d words new_list0 chunks).

(** The whole cell: [new_list] after the loop over the dataframe. *)
Definition chunk_dataframe (df : list document) : list chunk :=
  fold_left (fun new_list0 d => chunk_document d new_list0) df [].

(** The word group assembled by iteration [j] (counted from 0): the
    value of [new_content] once that iteration has run. *)
Definition word_group (d : document) (words : list str) (j : nat) : list str :=
  new_content (chunk_loop d words [] (S j)).

(** All groups the loop assembles for a text, in order. *)
Definition word_groups (d : document) : list (list str) :=
  let words := chunk_words (content d) in
  map (word_group d words) (seq 0 (chunk_count (length words))).

(** The chunker with the filter line removed. *)
Definition chunk_document_unfiltered (d : document) (new_list0 : list chunk)
  : list chunk :=
  let text := content d in
  let token_len := num_tokens_from_string (Some text) cl100k_base in
  if token_len <=? 512
  then new_list0 ++ [ {| chunk_title := title d;
                         chunk_content := content d;
                         chunk_url := url d;
                         chunk_tokens := token_len |} ]
  else
    let words := split text in
    let total_words := length words in
    let chunks := chunk_count total_words in
    new_list (chunk_loop d words new_list0 chunks).

(** The chunk made of the group [g]: its words joined by spaces, with
    the measured count. *)
Definition chunk_of_group (d : document) (g : list str) : chunk :=
  let s := join [SPACE] g in
  {| chunk_title := title d;
     chunk_content := s;
     chunk_url := url d;
     chunk_tokens := num_tokens_from_string (Some s) cl100k_base |}.

(** What one iteration appends for the group [g]. *)
Definition emit (d : document) (g : list str) : list chunk :=
  let s := join [SPACE] g in
  if 0 <? num_tokens_from_string (Some s) cl100k_base
  then [chunk_of_group d g]
  else [].

End Chunker.

(** The positivity of the real tokenizer: a text that is not empty has at
    least one token. *)
Definition encoder_positive (get_encoding : str -> str -> list token) : Prop :=
  forall s : str, s <> [] -> get_encoding cl100k_base s <> [].

(** Cell 11: the number of words of an essay. *)
Definition get_essay_length (essay : str) : nat :=
  let word_list := split essay in
  let num_words := length word_list in
  num_words.

(** The number of chunks one document gives when every group is
    emitted: one when it is appended whole, else one per group. *)
Definition chunks_per_document (get_encoding : str -> str -> list token)
           (d : document) : nat :=
  if num_tokens_from_string get_encoding (Some (content d)) cl100k_base <=? 512
  then 1
  else ceil_div (get_essay_length (content d)) ideal_size.

(** ** External services and the store

    The notebooks call three collaborators: the embedding service, the
    chat-completion service and PostgreSQL.  A call is recorded in the
    world, in order; its answer comes from an oracle.  A Python exception
    ends the computation and keeps the world reached so far. *)

Inductive exn : Type :=
| IndexError
| ExternalServiceError
| ValueError.

Inductive result (A : Type) : Type :=
| Ok (a : A)
| Raise (e : exn).

Arguments Ok {A} a.
Arguments Raise {A} e.

(** *** The tokenizer helper with the exceptions of the encoder

    [tiktoken.get_encoding(name).encode(text)] raises [ValueError] for a
    name it does not know and, with the settings the helper leaves at
    their defaults, for a text that holds a special token.  The helper
    does not catch it.  [num_tokens_from_string] above is this function
    on the texts the encoder accepts. *)







(** One [{"role": ..., "content": ...}] entry of a prompt. *)
Record message := { role : str; message_content : str }.

(** A product of the pgai notebook. *)
Record product := { name : str; description : str }.

Section Services.

(** An embedding: a list of floats for Python, opaque here. *)
Variable vector : Type.

(** The value of [a <=> b] and the order [ORDER BY] sorts it with. *)
Variable K : Type.
Variable distance : vector -> vector -> K.
Variable leb : K -> K -> bool.

(** [openai_client.embeddings.create(model=, input=)]: the [embedding]
    of each element of [response.data]. *)
Variable openai_embeddings_create : str -> str -> result (list vector).

(** [openai_client.chat.completions.create(...)]: the [message.content]
    of each element of [response.choices]. *)
Variable openai_chat_completions_create :
  str -> list message -> nat -> nat -> result (list str).

(** [ai.openai_embed(model, text)] of pgai, evaluated by the server. *)
Variable ai_openai_embed : str -> str -> result vector.

(** [ai.openai_chat_complete(model, messages)] of pgai: the contents of
    the choices of the answer. *)
Variable ai_openai_chat_complete : str -> list message -> result (list str).

Inductive sql_param : Type :=
| PVector (v : vector)
| PText (s : str).

Inductive call : Type :=
| EmbeddingsCreate (model input : str)
| ChatCompletionsCreate (model : str) (messages : list message)
                        (temperature max_tokens : nat)
| CursorExecute (query : str) (params : list sql_param).

(** A row of the table [embeddings]. *)
Record stored_row := {
  row_id : nat;
  row_title : str;
  row_url : str;
  row_content : str;
  row_tokens : nat;
  row_embedding : vector
}.

(** A row of the view [products_embedding], with the columns read. *)
Record embedding_row := {
  chunk_text : str;
  chunk_embedding : vector
}.

Record world := {
  embeddings : list stored_row;
  products_embedding : list embedding_row;
  calls : list call
}.

Definition M (A : Type) : Type := world -> result A * world.

Definition ret {A} (a : A) : M A := fun w => (Ok a, w).

Definition bind {A B} (m : M A) (k : A -> M B) : M B :=
  fun w =>
    match m w with
    | (Ok a, w') => k a w'
    | (Raise e, w') => (Raise e, w')
    end.

Definition raise {A} (e : exn) : M A := fun w => (Raise e, w).

Definition record_call (c : call) (w : world) : world :=
  {| embeddings := embeddings w;
     products_embedding := products_embedding w;
     calls := calls w ++ [c] |}.

(** A call to a service: recorded, then answered by the oracle. *)
Definition request {A} (c : call) (answer : result A) : M A :=
  fun w => (answer, record_call c w).

(** A query: recorded, then answered from the store. *)
Definition query_store {A} (c : call) (answer : world -> result A) : M A :=
  fun w => (answer w, record_call c w).

(** [l[i]] on a list. *)
Definition index {A} (l : list A) (i : nat) : M A :=
  match nth_error l i with
  | Some x => ret x
  | None => raise IndexError
  end.

Local Notation "x <- m ;; k" := (bind m (fun x => k))
  (at level 61, m at next level, right associativity).

(** *** The meaning of the two nearest-neighbour statements *)

(** [ORDER BY key]: insertion into a list ordered by [key]. *)
Fixpoint insert_by {A} (key : A -> K) (x : A) (l : list A) : list A :=
  match l with
  | [] => [x]
  | y :: rest =>
      if leb (key x) (key y) then x :: l else y :: insert_by key x rest
  end.

Definition order_by {A} (key : A -> K) (l : list A) : list A :=
  fold_right (insert_by key) [] l.

(** The rows [ORDER BY embedding <=> q LIMIT 3] selects from [embeddings]. *)
Definition nearest3 (q : vector) (table : list stored_row) : list stored_row :=
  firstn 3 (order_by (fun r => distance (row_embedding r) q) table).

(** The same over the view [products_embedding]. *)
Definition nearest3_chunks (q : vector) (view : list embedding_row)
  : list embedding_row :=
  firstn 3 (order_by (fun r => distance (chunk_embedding r) q) view).

(** *** Cell 17: the embedding adapter *)

Definition get_embeddings (text : str) : M vector :=
  let model := lit "text-embedding-3-small" in
  let input := replace NEWLINE SPACE text in
  response <- request (EmbeddingsCreate model input)
                      (openai_embeddings_create model input) ;;
  index response 0.

(** *** Cells 35 and 36: completion helper and top-3 retrieval *)

Definition get_completion_from_messages (messages : list message) : M str :=
  let model := lit "gpt-4o" in
  let temperature := 0 in
  let max_tokens := 1000 in
  response <- request
                (ChatCompletionsCreate model messages temperature max_tokens)
                (openai_chat_completions_create model messages temperature
                                                max_tokens) ;;
  index response 0.

Definition top3_statement : str :=
  lit "SELECT content FROM embeddings ORDER BY embedding <=> %s LIMIT 3".

(** The rows [fetchall] returns are 1-tuples, each modelled by its only
    column; [row[0]] is then the row itself. *)
Definition get_top3_similar_docs (query_embedding : vector) : M (list str) :=
  let embedding_array := query_embedding in
  query_store (CursorExecute top3_statement [PVector embedding_array])
              (fun w => Ok (map row_content
                                (nearest3 embedding_array (embeddings w)))).

(** *** Cell 40: the answer synthesizer *)

Definition system_message : str :=
  [NEWLINE]
  ++ lit "    You are a friendly chatbot.     You can answer questions about timescaledb, its features and its use cases.     You respond in a concise, technically credible tone.     ".

Definition process_input_with_retrieval (user_input : str) : M str :=
  let delimiter := lit "```" in
  query_embedding <- get_embeddings user_input ;;
  related_docs <- get_top3_similar_docs query_embedding ;;
  doc0 <- index related_docs 0 ;;
  doc1 <- index related_docs 1 ;;
  doc2 <- index related_docs 2 ;;
  let messages :=
    [ {| role := lit "system"; message_content := system_message |};
      {| role := lit "user";
         message_content := delimiter ++ user_input ++ delimiter |};
      {| role := lit "assistant";
         message_content :=
           lit "Relevant Timescale case studies information: "
           ++ [NEWLINE] ++ [SPACE] ++ doc0 ++ [SPACE; NEWLINE; SPACE]
           ++ doc1 ++ [SPACE] ++ doc2 |} ] in
  get_completion_from_messages messages.

(** *** The pgai notebook: context retrieval and answer generation *)

(** The text of the two statements below is the source's with each run of
    whitespace written as one space. *)
Definition retrieve_statement : str :=
  lit "SELECT chunk FROM products_embedding ORDER BY embedding <=> ai.openai_embed('text-embedding-3-small', %s) ASC LIMIT 3;".

(** The retrieval cell: the value of [context] it leaves. *)
Definition retrieve_context (query : str) : M str :=
  rows <- query_store
            (CursorExecute retrieve_statement [PText query])
            (fun w =>
               match ai_openai_embed (lit "text-embedding-3-small") query with
               | Ok q => Ok (map chunk_text
                                 (nearest3_chunks q (products_embedding w)))
               | Raise e => Raise e
               end) ;;
  let context :=
    join [NEWLINE; NEWLINE] (map (fun row => lit "Chunk: " ++ row) rows) in
  ret context.

Definition generate_statement : str :=
  lit "SELECT ai.openai_chat_complete('gpt-4o-mini', jsonb_build_array(jsonb_build_object('role', 'system', 'content', 'you are a helpful assistant'), jsonb_build_object('role', 'user', 'content', %s)))::json->'choices'->0->'message'->>'content';".

(** The generation cell: the value of [model_response]; [None] is the
    SQL null the JSON path yields when there is no first choice. *)
Definition generate_response (query context : str) : M (option str) :=
  let prompt :=
    lit "Query: " ++ query ++ [NEWLINE] ++ lit "Context: " ++ context in
  query_store
    (CursorExecute generate_statement [PText prompt])
    (fun _ =>
       match ai_openai_chat_complete
               (lit "gpt-4o-mini")
               [ {| role := lit "system";
                    message_content := lit "you are a helpful assistant" |};
                 {| role := lit "user"; message_content := prompt |} ] with
       | Ok choices => Ok (nth_error choices 0)
       | Raise e => Raise e
       end).

(** The two cells run one after the other. *)
Definition answer_with_context (query : str) : M (option str) :=
  context <- retrieve_context query ;;
  generate_response query context.

(** The world after the calls [l], made in that order. *)
Definition record_calls (l : list call) (w : world) : world :=
  {| embeddings := embeddings w;
     products_embedding := products_embedding w;
     calls := calls w ++ l |}.

(** What the response of the embedding service to a text amounts to for
    [get_embeddings]: the first embedding, [IndexError] when [data] is
    empty, the exception of the service. *)
Definition first_embedding (text : str) : result vector :=
  match openai_embeddings_create (lit "text-embedding-3-small")
                                 (replace NEWLINE SPACE text) with
  | Ok (v :: _) => Ok v
  | Ok [] => Raise IndexError
  | Raise e => Raise e
  end.

(** The request [get_embeddings] sends for a text. *)
Definition embedding_request (text : str) : call :=
  EmbeddingsCreate (lit "text-embedding-3-small") (replace NEWLINE SPACE text).

(** [w'] is [w] after at most [n] more calls, the tables as they were. *)
Definition grows_by (n : nat) (w w' : world) : Prop :=
  embeddings w' = embeddings w
  /\ products_embedding w' = products_embedding w
  /\ exists l, calls w' = calls w ++ l /\ length l <= n.

(** *** Cell 19: the embedding of every chunk *)

(** A row of [df_new]: an entry of [new_list] with its embedding
    appended. *)
Record embedded_chunk := {
  embedded : chunk;
  embeddings_column : vector
}.

(** The loop [for i in range(len(new_list))], which appends to each
    entry the embedding of its content; the value is [new_list] once the
    loop has run to its end. *)
Fixpoint append_embeddings (new_list : list chunk) : M (list embedded_chunk) :=
  match new_list with
  | [] => ret []
  | entry :: rest =>
      let text := chunk_content entry in
      embedding <- get_embeddings text ;;
      rows <- append_embeddings rest ;;
      ret ({| embedded := entry; embeddings_column := embedding |} :: rows)
  end.

(** *** Cells 27 and 28: batch insertion and row count *)

(** The store with the sequence behind the [bigserial] column [id]: the
    last value it has handed out. *)
Record database := {
  tables : world;
  embeddings_id_seq : nat
}.

(** One tuple [(title, url, content, tokens, embedding)] of [data_list]. *)
Record data_tuple := {
  data_title : str;
  data_url : str;
  data_content : str;
  data_tokens : nat;
  data_embedding : vector
}.

Definition data_list (df_new : list embedded_chunk) : list data_tuple :=
  map (fun row =>
         {| data_title := chunk_title (embedded row);
            data_url := chunk_url (embedded row);
            data_content := chunk_content (embedded row);
            data_tokens := chunk_tokens (embedded row);
            data_embedding := embeddings_column row |})
      df_new.

(** The rows the statement [INSERT INTO embeddings (title, url, content,
    tokens, embedding) VALUES ...] adds, the ids drawn from the sequence
    in the order of the tuples. *)
Fixpoint inserted_rows (last_id : nat) (data : list data_tuple)
  : list stored_row :=
  match data with
  | [] => []
  | t :: rest =>
      {| row_id := S last_id;
         row_title := data_title t;
         row_url := data_url t;
         row_content := data_content t;
         row_tokens := data_tokens t;
         row_embedding := data_embedding t |}
      :: inserted_rows (S last_id) rest
  end.

(** [execute_values(cur, "INSERT ...", data_list)] followed by the
    commit: its effect on the table. *)
Definition execute_values_insert (data : list data_tuple) (db : database)
  : database :=
  {| tables :=
       {| embeddings :=
            embeddings (tables db)
            ++ inserted_rows (embeddings_id_seq db) data;
          products_embedding := products_embedding (tables db);
          calls := calls (tables db) |};
     embeddings_id_seq := embeddings_id_seq db + length data |}.

Definition count_statement : str :=
  lit "SELECT COUNT(*) as cnt FROM embeddings;".

(** Cell 28: the value of [num_records]. *)
Definition count_records : M nat :=
  query_store (CursorExecute count_statement [])
              (fun w => Ok (length (embeddings w))).

(** Cells 13, 19 and 27 run one after the other on a dataframe: the
    chunks, their embeddings, the batch insertion.  An exception of the
    embedding loop ends the run before anything is inserted. *)
Definition ingest (get_encoding : str -> str -> list token)
           (df : list document) (db : database) : result unit * database :=
  let new_list := chunk_dataframe get_encoding df in
  match append_embeddings new_list (tables db) with
  | (Ok df_new, w) =>
      (Ok tt,
       execute_values_insert (data_list df_new)
         {| tables := w; embeddings_id_seq := embeddings_id_seq db |})
  | (Raise e, w) =>
      (Raise e, {| tables := w; embeddings_id_seq := embeddings_id_seq db |})
  end.

End Services.

(** ** The pgai notebook: source-table ingestion

    [insert_subset_data] writes the products to a buffer and hands it to
    [copy_from] with the separator tab.  The server reads the buffer in
    the text format of COPY: a row per line, the fields of a row between
    separators. *)

(** What [insert_subset_data] has written to [output] when it calls
    [copy_from]: one line [name TAB description NEWLINE] per product. *)
Definition insert_subset_data_output (subset : list product) : str :=
  flat_map (fun product =>
              name product ++ [TAB] ++ description product ++ [NEWLINE])
           subset.

(** The two parts of the catalogue: [products[:250]] and
    [products[250:]]. *)
Definition subset_1 (products : list product) : list product :=
  slice products 0 250.

Definition subset_2 (products : list product) : list product :=
  slice products 250 (length products).

(** *** The text format of COPY

    [copy_from(output, 'products', columns=('product', 'description'),
    sep='\t')] sends the buffer to [COPY products (product, description)
    FROM STDIN] with the delimiter tab and the null string [\N].  The
    server reads it line by line.  A backslash takes the character after
    it with it, so that neither ends a line or a field; the first line
    ending fixes the newline style of the whole data; the fields of a
    line are cut at the delimiter and their escapes decoded; a row must
    have the number of columns asked for.  The first fault ends the
    whole COPY and nothing is stored.

    Two things are left open ([CopyNotCovered]): the end-of-data marker
    (a backslash followed by a full stop), whose treatment changed
    between server versions, and an octal or hexadecimal escape of a
    byte above 127, whose validity depends on the bytes around it.
    Client and database are taken to use UTF-8, in which the characters
    the format treats specially are single bytes that occur in no other
    character, so that the text is read by code points. *)

Definition BACKSLASH : codepoint := 92%N.
Definition CARRIAGE_RETURN : codepoint := 13%N.
Definition FULL_STOP : codepoint := 46%N.

Inductive copy_outcome (A : Type) : Type :=
| CopyOk (a : A)
| CopyFails
| CopyNotCovered.

Arguments CopyOk {A} a.
Arguments CopyFails {A}.
Arguments CopyNotCovered {A}.

(** The newline style, unknown until the first line has ended. *)
Inductive eol_type : Type := EOL_UNKNOWN | EOL_NL | EOL_CR | EOL_CRNL.

(** How the reading of the lines ended. *)
Inductive ending : Type :=
| ReadToEnd
| BadLineEnd      (* a line ending that is not of the style of the data *)
| EndMarker.      (* a backslash followed by a full stop *)

Inductive pending : Type := Plain | AfterBackslash | AfterCR.

Inductive scan : Type :=
| Append (p : pending)
| EndOfLine (eol : eol_type)
| Peek
| BadLine.

(** What a character does to the line being read, nothing pending. *)
Definition scan_char (eol : eol_type) (c : codepoint) : scan :=
  if N.eqb c CARRIAGE_RETURN then
    match eol with
    | EOL_UNKNOWN | EOL_CRNL => Peek
    | EOL_NL => BadLine
    | EOL_CR => EndOfLine EOL_CR
    end
  else if N.eqb c NEWLINE then
    match eol with
    | EOL_CR | EOL_CRNL => BadLine
    | EOL_UNKNOWN | EOL_NL => EndOfLine EOL_NL
    end
  else if N.eqb c BACKSLASH then Append AfterBackslash
  else Append Plain.

Definition cons_line (line : str) (r : list str * ending) : list str * ending :=
  (line :: fst r, snd r).

(** The lines of the data, without their endings, up to the end or to
    the first fault.  [cur] is the line being read. *)
Fixpoint read_lines (eol : eol_type) (pend : pending) (cur : str) (s : str)
  : list str * ending :=
  match s with
  | [] =>
      match pend with
      | AfterCR =>
          match eol with
          | EOL_CRNL => ([], BadLineEnd)
          | _ => ([cur], ReadToEnd)
          end
      | _ => (match cur with [] => [] | _ :: _ => [cur] end, ReadToEnd)
      end
  | c :: rest =>
      match pend with
      | AfterBackslash =>
          if N.eqb c FULL_STOP then ([], EndMarker)
          else read_lines eol Plain (cur ++ [c]) rest
      | AfterCR =>
          if N.eqb c NEWLINE
          then cons_line cur (read_lines EOL_CRNL Plain [] rest)
          else
            match eol with
            | EOL_CRNL => ([], BadLineEnd)
            | _ =>
                (* the style is carriage return; [c] opens the next line *)
                cons_line cur
                  (match scan_char EOL_CR c with
                   | Append p => read_lines EOL_CR p [c] rest
                   | EndOfLine e => cons_line [] (read_lines e Plain [] rest)
                   | Peek | BadLine => ([], BadLineEnd)
                   end)
            end
      | Plain =>
          match scan_char eol c with
          | Append p => read_lines eol p (cur ++ [c]) rest
          | EndOfLine e => cons_line cur (read_lines e Plain [] rest)
          | Peek => read_lines eol AfterCR cur rest
          | BadLine => ([], BadLineEnd)
          end
      end
  end.

(** The escape being read inside a field. *)
Inductive escape : Type :=
| NoEscape
| Backslash
| Octal (digits : nat) (value : N)
| HexX
| Hex (value : N).

Record field_scan := {
  fs_fields : list (option str);   (* the fields closed so far *)
  fs_raw : str;                    (* the field being read, as written *)
  fs_out : str;                    (* the same, its escapes decoded *)
  fs_esc : escape
}.

Definition octal_digit (c : codepoint) : option N :=
  if in_range 48%N 55%N c then Some (c - 48)%N else None.

Definition hex_digit (c : codepoint) : option N :=
  if in_range 48%N 57%N c then Some (c - 48)%N
  else if in_range 97%N 102%N c then Some (c - 87)%N
  else if in_range 65%N 70%N c then Some (c - 55)%N
  else None.

(** The character a backslash and [c] stand for, digits and [x] apart. *)
Definition escape_letter (c : codepoint) : codepoint :=
  if N.eqb c 98%N then 8%N            (* b *)
  else if N.eqb c 102%N then 12%N     (* f *)
  else if N.eqb c 110%N then 10%N     (* n *)
  else if N.eqb c 114%N then 13%N     (* r *)
  else if N.eqb c 116%N then 9%N      (* t *)
  else if N.eqb c 118%N then 11%N     (* v *)
  else c.

(** A field is null when it is written exactly as the null string. *)
Definition close_field (st : field_scan) : list (option str) :=
  fs_fields st
  ++ [ if str_eqb (fs_raw st) [BACKSLASH; 78%N] then None
       else Some (fs_out st) ].

(** A character read with no escape open. *)
Definition plain_char (sep : codepoint) (st : field_scan) (c : codepoint)
  : field_scan :=
  if N.eqb c sep then
    {| fs_fields := close_field st; fs_raw := []; fs_out := [];
       fs_esc := NoEscape |}
  else if N.eqb c BACKSLASH then
    {| fs_fields := fs_fields st; fs_raw := fs_raw st; fs_out := fs_out st;
       fs_esc := Backslash |}
  else
    {| fs_fields := fs_fields st; fs_raw := fs_raw st ++ [c];
       fs_out := fs_out st ++ [c]; fs_esc := NoEscape |}.

(** The byte an octal or hexadecimal escape gives: a zero byte is
    refused, a byte above 127 is left open. *)
Definition push_byte (st : field_scan) (value : N) : copy_outcome field_scan :=
  let b := (value mod 256)%N in
  if N.eqb b 0%N then CopyFails
  else if N.leb 128%N b then CopyNotCovered
  else CopyOk {| fs_fields := fs_fields st; fs_raw := fs_raw st;
                 fs_out := fs_out st ++ [b]; fs_esc := NoEscape |}.

Definition with_raw (st : field_scan) (written : str) (e : escape) : field_scan :=
  {| fs_fields := fs_fields st; fs_raw := fs_raw st ++ written;
     fs_out := fs_out st; fs_esc := e |}.

Definition then_plain (sep : codepoint) (c : codepoint)
           (r : copy_outcome field_scan) : copy_outcome field_scan :=
  match r with
  | CopyOk st => CopyOk (plain_char sep st c)
  | CopyFails => CopyFails
  | CopyNotCovered => CopyNotCovered
  end.

Definition field_step (sep : codepoint) (st : field_scan) (c : codepoint)
  : copy_outcome field_scan :=
  match fs_esc st with
  | NoEscape => CopyOk (plain_char sep st c)
  | Backslash =>
      let st1 := with_raw st [BACKSLASH; c] NoEscape in
      match octal_digit c with
      | Some d => CopyOk (with_raw st [BACKSLASH; c] (Octal 1 d))
      | None =>
          if N.eqb c 120%N (* x *)
          then CopyOk (with_raw st [BACKSLASH; c] HexX)
          else CopyOk {| fs_fields := fs_fields st1; fs_raw := fs_raw st1;
                         fs_out := fs_out st1 ++ [escape_letter c];
                         fs_esc := NoEscape |}
      end
  | Octal digits value =>
      match octal_digit c with
      | Some d =>
          if digits =? 1
          then CopyOk (with_raw st [c] (Octal 2 (value * 8 + d)%N))
          else push_byte (with_raw st [c] NoEscape) (value * 8 + d)%N
      | None => then_plain sep c (push_byte st value)
      end
  | HexX =>
      match hex_digit c with
      | Some d => CopyOk (with_raw st [c] (Hex d))
      | None =>
          CopyOk (plain_char sep
                    {| fs_fields := fs_fields st; fs_raw := fs_raw st;
                       fs_out := fs_out st ++ [120%N]; fs_esc := NoEscape |}
                    c)
      end
  | Hex value =>
      match hex_digit c with
      | Some d => push_byte (with_raw st [c] NoEscape) (value * 16 + d)%N
      | None => then_plain sep c (push_byte st value)
      end
  end.

(** The end of the line: an escape still open gives what it has, a
    backslash alone at the end is dropped, and the last field closes. *)
Definition finish_fields (st : field_scan) : copy_outcome (list (option str)) :=
  match fs_esc st with
  | NoEscape | Backslash => CopyOk (close_field st)
  | Octal _ value | Hex value =>
      match push_byte st value with
      | CopyOk st' => CopyOk (close_field st')
      | CopyFails => CopyFails
      | CopyNotCovered => CopyNotCovered
      end
  | HexX =>
      CopyOk (close_field
                {| fs_fields := fs_fields st; fs_raw := fs_raw st;
                   fs_out := fs_out st ++ [120%N]; fs_esc := NoEscape |})
  end.

Fixpoint scan_fields (sep : codepoint) (st : field_scan) (line : str)
  : copy_outcome (list (option str)) :=
  match line with
  | [] => finish_fields st
  | c :: rest =>
      match field_step sep st c with
      | CopyOk st' => scan_fields sep st' rest
      | CopyFails => CopyFails
      | CopyNotCovered => CopyNotCovered
      end
  end.

(** The fields of one line; [None] is a null. *)
Definition read_fields (sep : codepoint) (line : str)
  : copy_outcome (list (option str)) :=
  scan_fields sep
    {| fs_fields := []; fs_raw := []; fs_out := []; fs_esc := NoEscape |} line.

(** A character the client can encode and the server accepts in a text:
    a Unicode scalar value other than zero. *)
Definition valid_char (c : codepoint) : bool :=
  negb (N.eqb c 0%N)
  && (N.ltb c 55296%N || (N.ltb 57343%N c && N.leb c 1114111%N)).

(** The rows of the lines, each of [ncols] fields, up to the first
    fault. *)
Fixpoint read_rows (ncols : nat) (sep : codepoint) (lines : list str)
  : copy_outcome (list (list (option str))) :=
  match lines with
  | [] => CopyOk []
  | line :: rest =>
      if negb (forallb valid_char line) then CopyFails
      else
        match read_fields sep line with
        | CopyOk row =>
            if length row =? ncols
            then match read_rows ncols sep rest with
                 | CopyOk rows => CopyOk (row :: rows)
                 | CopyFails => CopyFails
                 | CopyNotCovered => CopyNotCovered
                 end
            else CopyFails
        | CopyFails => CopyFails
        | CopyNotCovered => CopyNotCovered
        end
  end.

(** The rows COPY reads from the data for a table of [ncols] columns. *)
Definition copy_read (ncols : nat) (sep : codepoint) (payload : str)
  : copy_outcome (list (list (option str))) :=
  let r := read_lines EOL_UNKNOWN Plain [] payload in
  match read_rows ncols sep (fst r) with
  | CopyOk rows =>
      match snd r with
      | ReadToEnd => CopyOk rows
      | BadLineEnd => CopyFails
      | EndMarker => CopyNotCovered
      end
  | CopyFails => CopyFails
  | CopyNotCovered => CopyNotCovered
  end.

(** A row of [products]: both columns are [NOT NULL]. *)
Definition product_of_row (row : list (option str)) : option product :=
  match row with
  | [Some n; Some d] => Some {| name := n; description := d |}
  | _ => None
  end.

Fixpoint products_of_rows (rows : list (list (option str)))
  : option (list product) :=
  match rows with
  | [] => Some []
  | row :: rest =>
      match product_of_row row, products_of_rows rest with
      | Some p, Some ps => Some (p :: ps)
      | _, _ => None
      end
  end.

(** What [insert_subset_data] adds to the table [products]: the
    (product, description) of each new row, in order. *)
Definition insert_subset_data (subset : list product)
  : copy_outcome (list product) :=
  match copy_read 2 TAB (insert_subset_data_output subset) with
  | CopyOk rows =>
      match products_of_rows rows with
      | Some stored => CopyOk stored
      | None => CopyFails
      end
  | CopyFails => CopyFails
  | CopyNotCovered => CopyNotCovered
  end.

(** A character that COPY reads as itself inside a field: no delimiter,
    line ending or backslash, and valid in a text. *)
Definition copy_safe_char (c : codepoint) : bool :=
  valid_char c
  && negb (N.eqb c TAB) && negb (N.eqb c NEWLINE)
  && negb (N.eqb c CARRIAGE_RETURN) && negb (N.eqb c BACKSLASH).

Definition copy_safe_product (p : product) : Prop :=
  forallb copy_safe_char (name p) = true
  /\ forallb copy_safe_char (description p) = true.

(** A character that neither ends a line nor opens an escape. *)
Definition escape_free (c : codepoint) : Prop :=
  c <> BACKSLASH /\ c <> CARRIAGE_RETURN.

Definition escape_free_product (p : product) : Prop :=
  Forall escape_free (name p) /\ Forall escape_free (description p).

(** Neither field of the product holds a tab or a newline. *)
Definition plain_field (s : str) : Prop :=
  ~ In TAB s /\ ~ In NEWLINE s.

Definition plain_product (p : product) : Prop :=
  plain_field (name p) /\ plain_field (description p).

(** The text of one product's line, without its final newline. *)
Definition product_line (p : product) : str :=
  name p ++ [TAB] ++ description p.

(** The newlines inside the two fields of a product. *)
Definition inner_newlines (p : product) : nat :=
  count_occ N.eq_dec (name p) NEWLINE
  + count_occ N.eq_dec (description p) NEWLINE.

Definition tabbed_product : product :=
  {| name := lit "T-shirt" ++ [TAB] ++ lit "blue";
     description := lit "cotton" |}.

Definition multiline_product : product :=
  {| name := lit "Mug";
     description := lit "ceramic" ++ [NEWLINE] ++ lit "white" |}.

(** Two products without tab or newline, the first description ending
    in a backslash. *)
Definition backslash_products : list product :=
  [ {| name := lit "x"; description := lit "a" ++ [BACKSLASH] |};
    {| name := lit "y"; description := lit "b" |} ].

Definition path_product : product :=
  {| name := lit "Path";
     description := lit "C:" ++ [BACKSLASH] ++ lit "temp" |}.

Definition carriage_return_product : product :=
  {| name := lit "a";
     description := lit "b" ++ [CARRIAGE_RETURN] ++ lit "c" |}.

(** A name that holds a tab and then a newline. *)
Definition two_row_product : product :=
  {| name := lit "a" ++ [TAB] ++ lit "b" ++ [NEWLINE] ++ lit "c";
     description := lit "d" |}.

(** A tab in the name, after a backslash. *)
Definition escaped_tab_product : product :=
  {| name := lit "a" ++ [BACKSLASH; TAB] ++ lit "b";
     description := lit "c" |}.

(** ** Instances used to run the services on concrete inputs:
    embeddings are numbers, their distance the absolute difference. *)

Definition gap (a b : nat) : nat := (a - b) + (b - a).

Definition length_embedding : str -> str -> result (list nat) :=
  fun _ input => Ok [length input].

Definition fixed_completion : str -> list message -> nat -> nat -> result (list str) :=
  fun _ _ _ _ => Ok [lit "answer"].

Definition sample_row (i : nat) (text : string) (e : nat) : stored_row nat :=
  {| row_id := i; row_title := lit "post"; row_url := lit "https://example.org";
     row_content := lit text; row_tokens := 1; row_embedding := e |}.

Definition store_of_four : world nat :=
  {| embeddings := [ sample_row 1 "far" 90; sample_row 2 "near" 11;
                     sample_row 3 "exact" 10; sample_row 4 "mid" 30 ];
     products_embedding := [];
     calls := [] |}.

Definition empty_store : world nat :=
  {| embeddings := []; products_embedding := []; calls := [] |}.

(** An embedding service that refuses an empty input. *)
Definition refuses_empty : str -> str -> result (list nat) :=
  fun _ input =>
    match input with
    | [] => Raise ExternalServiceError
    | _ :: _ => Ok [length input]
    end.

Definition empty_database : database nat :=
  {| tables := empty_store; embeddings_id_seq := 0 |}.

Definition short_chunk : chunk :=
  {| chunk_title := lit "Intro"; chunk_content := lit "hello vector world";
     chunk_url := lit "https://example.org/intro"; chunk_tokens := 18 |}.

Definition empty_chunk : chunk :=
  {| chunk_title := lit "Empty"; chunk_content := [];
     chunk_url := lit "https://example.org/empty"; chunk_tokens := 0 |}.

Definition empty_post : document :=
  {| title := lit "Empty"; content := [];
     url := lit "https://example.org/empty" |}.

Definition view_of_two : world nat :=
  {| embeddings := [];
     products_embedding :=
       [ {| chunk_text := lit "wool socks"; chunk_embedding := 40 |};
         {| chunk_text := lit "cotton t-shirt"; chunk_embedding := 12 |} ];
     calls := [] |}.

Definition length_of_query : str -> str -> result nat :=
  fun _ query => Ok (length query).

(** ** Instances used to run the chunker on concrete inputs *)

(** A tokenizer with one token per code point. *)
Definition unit_encoding : str -> str -> list token := fun _ text => text.

(** The word [a] written 2000 times, a space after each. *)
Definition two_thousand_words : document :=
  {| title := lit "t";
     content := flat_map (fun _ => [97%N; SPACE]) (seq 0 2000);
     url := lit "u" |}.

Definition short_post : document :=
  {| title := lit "Intro"; content := lit "hello vector world";
     url := lit "https://example.org/intro" |}.

(** A content of 600 newlines: with [unit_encoding] more than 512 tokens
    and not one word. *)
Definition blank_page : document :=
  {| title := lit "blank"; content := repeat NEWLINE 600; url := lit "u" |}.

(** ** Facts about the string operations *)

Lemma isspace_SPACE : isspace SPACE = true.
Proof. reflexivity. Qed.

Lemma str_eqb_eq (a b : str) : str_eqb a b = true <-> a = b.
Proof.
  unfold str_eqb. destruct (list_eq_dec N.eq_dec a b); split; congruence.
Qed.

Lemma split_from_words (s cur : str) :
  Forall (fun c => isspace c = false) cur ->
  Forall is_word (split_from cur s).
Proof.
  revert cur. induction s as [|c rest IH]; intros cur Hcur; simpl.
  - destruct cur as [|c0 cur']; constructor; [|constructor].
    split; [discriminate|assumption].
  - destruct (isspace c) eqn:Hc.
    + destruct cur as [|c0 cur'].
      * apply IH. constructor.
      * constructor.
        -- split; [discriminate|assumption].
        -- apply IH. constructor.
    + apply IH. apply Forall_app. split; [assumption|].
      constructor; [assumption|constructor].
Qed.

Lemma split_words (s : str) : Forall is_word (split s).
Proof. apply split_from_words. constructor. Qed.

Lemma split_from_app_word (w cur s : str) :
  Forall (fun c => isspace c = false) w ->
  split_from cur (w ++ s) = split_from (cur ++ w) s.
Proof.
  revert cur. induction w as [|c w IH]; intros cur Hw; simpl.
  - now rewrite app_nil_r.
  - inversion Hw as [|? ? Hc Hw']; subst. rewrite Hc.
    rewrite IH by assumption. now rewrite <- app_assoc.
Qed.

Lemma split_single_word (w : str) : is_word w -> split w = [w].
Proof.
  intros [Hne Hw]. unfold split.
  rewrite <- (app_nil_r w) at 1.
  rewrite split_from_app_word by assumption. simpl.
  destruct w; [contradiction|reflexivity].
Qed.

Lemma split_from_space (cur s : str) :
  cur <> [] -> split_from cur (SPACE :: s) = cur :: split_from [] s.
Proof.
  intros Hne.
  change (split_from cur (SPACE :: s))
    with (if isspace SPACE
          then match cur with
               | [] => split_from [] s
               | _ :: _ => cur :: split_from [] s
               end
          else split_from (cur ++ [SPACE]) s).
  rewrite isspace_SPACE. destruct cur; [contradiction|reflexivity].
Qed.

(** Splitting a space-joined list of words gives the words back. *)
Lemma split_join (ws : list str) :
  Forall is_word ws -> split (join [SPACE] ws) = ws.
Proof.
  induction ws as [|w ws IH]; intros Hws; [reflexivity|].
  inversion Hws as [|? ? Hw Hws']; subst.
  destruct ws as [|w' ws'].
  - simpl. now apply split_single_word.
  - change (join [SPACE] (w :: w' :: ws'))
      with (w ++ [SPACE] ++ join [SPACE] (w' :: ws')).
    unfold split. destruct Hw as [Hne Hw].
    rewrite split_from_app_word by assumption.
    simpl app. rewrite split_from_space by assumption.
    f_equal. apply IH. assumption.
Qed.

Lemma join_nonempty (sep : str) (ws : list str) :
  ws <> [] -> Forall is_word ws -> join sep ws <> [].
Proof.
  intros Hne Hws. destruct ws as [|w ws]; [contradiction|].
  inversion Hws as [|? ? [Hw _] _]; subst.
  destruct w as [|c w]; [contradiction|].
  simpl. destruct ws; discriminate.
Qed.

(** The filter of the chunker keeps every word of [split]. *)
Lemma filter_space_words (ws : list str) :
  Forall is_word ws ->
  filter (fun x => negb (str_eqb x [SPACE])) ws = ws.
Proof.
  induction 1 as [|w ws Hw _ IH]; [reflexivity|].
  simpl. rewrite IH.
  destruct (str_eqb w [SPACE]) eqn:E; [|reflexivity].
  apply str_eqb_eq in E. subst w. destruct Hw as [_ Hw].
  inversion Hw as [|? ? Hc _]; subst. discriminate.
Qed.

Lemma slice_Forall {A} (P : A -> Prop) (l : list A) (a b : nat) :
  Forall P l -> Forall P (slice l a b).
Proof.
  intros H. unfold slice.
  rewrite <- (firstn_skipn a l) in H. apply Forall_app in H as [_ H].
  rewrite <- (firstn_skipn (b - a) (skipn a l)) in H.
  now apply Forall_app in H as [H _].
Qed.

Lemma slice_length {A} (l : list A) (a b : nat) :
  length (slice l a b) = Nat.min (b - a) (length l - a).
Proof. unfold slice. now rewrite length_firstn, length_skipn. Qed.

Lemma firstn_app_slice {A} (l : list A) (a b : nat) :
  a <= b -> firstn a l ++ slice l a b = firstn b l.
Proof.
  intros Hab. unfold slice.
  rewrite <- skipn_firstn_comm.
  rewrite <- (firstn_skipn a (firstn b l)) at 2.
  f_equal. rewrite firstn_firstn. f_equal. lia.
Qed.

(** Consecutive slices of width [k] tile a prefix of the list. *)
Lemma concat_slices {A} (l : list A) (k m : nat) :
  concat (map (fun j => slice l (j * k) (Nat.min ((j + 1) * k) (length l)))
              (seq 0 m))
  = firstn (Nat.min (m * k) (length l)) l.
Proof.
  induction m as [|m IH]; [reflexivity|].
  rewrite seq_S, map_app, concat_app, IH. simpl map. simpl concat.
  rewrite app_nil_r. simpl plus.
  destruct (le_lt_dec (length l) (m * k)) as [Hge|Hlt].
  - rewrite (Nat.min_r (m * k)) by lia.
    rewrite (Nat.min_r (S m * k)) by lia.
    replace (Nat.min ((m + 1) * k) (length l)) with (length l) by lia.
    unfold slice. replace (length l - m * k) with 0 by lia.
    simpl. now rewrite app_nil_r.
  - rewrite (Nat.min_l (m * k)) by lia.
    replace ((m + 1) * k) with (S m * k) by lia.
    apply firstn_app_slice. lia.
Qed.

(** ** Facts about the chunking loop *)

Lemma ideal_size_pos : 0 < ideal_size.
Proof. unfold ideal_size. lia. Qed.

(** The exact quotient of 512 by the binary64 value of [4/3] has floor 384. *)
Remark ideal_size_floor :
  (512 * 2 ^ 52 / 6004799503160661)%N = N.of_nat ideal_size.
Proof. reflexivity. Qed.

(** The iteration count of the code is the ceiling of the specification. *)
Lemma chunk_count_ceil (n : nat) : chunk_count n = ceil_div n ideal_size.
Proof.
  pose proof ideal_size_pos as Hk.
  unfold chunk_count, ceil_div.
  pose proof (Nat.div_mod_eq n ideal_size) as Hn.
  pose proof (Nat.mod_upper_bound n ideal_size ltac:(lia)) as Hr.
  destruct (n mod ideal_size =? 0) eqn:E; simpl negb; cbv iota.
  - apply Nat.eqb_eq in E.
    apply Nat.div_unique with (r := ideal_size - 1); lia.
  - apply Nat.eqb_neq in E.
    apply Nat.div_unique with (r := n mod ideal_size - 1); lia.
Qed.

Lemma chunk_count_below (n j : nat) :
  j < chunk_count n -> j * ideal_size < n.
Proof.
  pose proof ideal_size_pos as Hk.
  unfold chunk_count.
  pose proof (Nat.div_mod_eq n ideal_size) as Hn.
  destruct (n mod ideal_size =? 0) eqn:E; simpl negb; cbv iota; intros Hj.
  - apply Nat.eqb_eq in E. nia.
  - apply Nat.eqb_neq in E. nia.
Qed.

Lemma chunk_count_covers (n : nat) : n <= chunk_count n * ideal_size.
Proof.
  pose proof ideal_size_pos as Hk.
  unfold chunk_count.
  pose proof (Nat.div_mod_eq n ideal_size) as Hn.
  pose proof (Nat.mod_upper_bound n ideal_size ltac:(lia)) as Hr.
  destruct (n mod ideal_size =? 0) eqn:E; simpl negb; cbv iota.
  - apply Nat.eqb_eq in E. nia.
  - nia.
Qed.

Section ChunkerFacts.

Variable get_encoding : str -> str -> list token.

Let ntok (s : str) : nat :=
  num_tokens_from_string get_encoding (Some s) cl100k_base.

Lemma chunk_loop_S d words nl j :
  chunk_loop get_encoding d words nl (S j)
  = chunk_step get_encoding d words (length words)
               (chunk_loop get_encoding d words nl j).
Proof. reflexivity. Qed.

Lemma chunk_loop_start d words nl j :
  start (chunk_loop get_encoding d words nl j) = j * ideal_size.
Proof.
  induction j as [|j IH]; [reflexivity|].
  rewrite chunk_loop_S. unfold chunk_step. cbn [start].
  rewrite IH. lia.
Qed.

Lemma chunk_loop_end d words nl j :
  j * ideal_size <= length words ->
  end_ (chunk_loop get_encoding d words nl j) = (j + 1) * ideal_size.
Proof.
  induction j as [|j IH]; intros Hj.
  - change (ideal_size = (0 + 1) * ideal_size). lia.
  - rewrite chunk_loop_S. unfold chunk_step. cbn [end_].
    rewrite IH by lia.
    destruct (length words <? (j + 1) * ideal_size) eqn:E.
    + apply Nat.ltb_lt in E. lia.
    + lia.
Qed.

Lemma chunk_loop_new_content d words nl j :
  j * ideal_size <= length words ->
  new_content (chunk_loop get_encoding d words nl (S j))
  = slice words (j * ideal_size)
          (Nat.min ((j + 1) * ideal_size) (length words)).
Proof.
  intros Hj. rewrite chunk_loop_S. unfold chunk_step. cbn [new_content].
  rewrite chunk_loop_start, chunk_loop_end by assumption.
  f_equal.
  destruct (length words <? (j + 1) * ideal_size) eqn:E.
  - apply Nat.ltb_lt in E. lia.
  - apply Nat.ltb_ge in E. lia.
Qed.

(** Each group is the slice [words[j*384 : min((j+1)*384, total_words)]]. *)
Lemma word_group_slice d words j :
  j * ideal_size <= length words ->
  word_group get_encoding d words j
  = slice words (j * ideal_size)
          (Nat.min ((j + 1) * ideal_size) (length words)).
Proof. apply chunk_loop_new_content. Qed.

Lemma chunk_step_new_list d words st :
  new_list (chunk_step get_encoding d words (length words) st)
  = new_list st
    ++ emit get_encoding d (new_content (chunk_step get_encoding d words (length words) st)).
Proof.
  unfold chunk_step, emit. cbn [new_list new_content].
  destruct (0 <? _); [reflexivity|now rewrite app_nil_r].
Qed.

Lemma chunk_loop_new_list d words nl j :
  j <= chunk_count (length words) ->
  new_list (chunk_loop get_encoding d words nl j)
  = nl ++ flat_map (emit get_encoding d) (map (word_group get_encoding d words) (seq 0 j)).
Proof.
  induction j as [|j IH]; intros Hj.
  - cbn. now rewrite app_nil_r.
  - pose proof (@chunk_count_below (length words) j ltac:(lia)).
    rewrite chunk_loop_S, chunk_step_new_list, <- chunk_loop_S.
    rewrite IH by lia.
    rewrite seq_S, map_app, flat_map_app, app_assoc. cbn [map flat_map plus].
    rewrite app_nil_r. f_equal. f_equal.
    rewrite chunk_loop_new_content, word_group_slice by lia. reflexivity.
Qed.

Lemma chunk_words_split (text : str) : chunk_words text = split text.
Proof. apply filter_space_words, split_words. Qed.

Lemma word_groups_slices d :
  word_groups get_encoding d
  = map (fun j => slice (split (content d)) (j * ideal_size)
                    (Nat.min ((j + 1) * ideal_size)
                             (length (split (content d)))))
        (seq 0 (chunk_count (length (split (content d))))).
Proof.
  unfold word_groups. rewrite chunk_words_split.
  apply map_ext_in. intros j Hj. apply in_seq in Hj.
  apply word_group_slice.
  pose proof (@chunk_count_below (length (split (content d))) j). lia.
Qed.

Lemma word_groups_length d :
  length (word_groups get_encoding d)
  = ceil_div (length (split (content d))) ideal_size.
Proof.
  unfold word_groups. rewrite length_map, length_seq, chunk_words_split.
  apply chunk_count_ceil.
Qed.

(** The groups are consecutive and cover the word list. *)
Lemma word_groups_concat d :
  concat (word_groups get_encoding d) = split (content d).
Proof.
  rewrite word_groups_slices, concat_slices.
  pose proof (chunk_count_covers (length (split (content d)))).
  rewrite Nat.min_r by assumption. apply firstn_all.
Qed.

Lemma word_groups_words d :
  Forall (fun g => g <> [] /\ Forall is_word g) (word_groups get_encoding d).
Proof.
  rewrite word_groups_slices. apply Forall_forall. intros g Hg.
  apply in_map_iff in Hg as [j [<- Hj]]. apply in_seq in Hj.
  pose proof (@chunk_count_below (length (split (content d))) j ltac:(lia)).
  pose proof ideal_size_pos. split.
  - intros E. apply (f_equal (@length str)) in E.
    rewrite slice_length in E. simpl in E. lia.
  - apply slice_Forall, split_words.
Qed.

(** The oversized branch appends what the groups emit, in order. *)
Lemma chunk_document_oversized d nl :
  512 < ntok (content d) ->
  chunk_document get_encoding d nl
  = nl ++ flat_map (emit get_encoding d) (word_groups get_encoding d).
Proof.
  intros Hbig. unfold chunk_document. fold (ntok (content d)).
  destruct (ntok (content d) <=? 512) eqn:E.
  - apply Nat.leb_le in E. lia.
  - cbv zeta. now rewrite chunk_loop_new_list.
Qed.

End ChunkerFacts.

(** ** Properties of the tokenizer helper and of the chunker *)

Lemma emit_positive get_encoding (d : document) (g : list str) :
  encoder_positive get_encoding ->
  g <> [] -> Forall is_word g ->
  emit get_encoding d g = [chunk_of_group get_encoding d g].
Proof.
  intros Hpos Hne Hg. unfold emit, chunk_of_group.
  pose proof (join_nonempty [SPACE] Hne Hg) as Hj.
  assert (0 < num_tokens_from_string get_encoding (Some (join [SPACE] g))
                                     cl100k_base) as Hn.
  { unfold num_tokens_from_string.
    destruct (join [SPACE] g) as [|c s] eqn:E; [contradiction|].
    cbn [truthy negb text_of].
    specialize (Hpos (c :: s) ltac:(discriminate)).
    destruct (get_encoding cl100k_base (c :: s)); [contradiction|simpl; lia]. }
  apply Nat.ltb_lt in Hn. now rewrite Hn.
Qed.

Lemma flat_map_singletons {A B} (f : A -> list B) (g : A -> B) (l : list A) :
  Forall (fun x => f x = [g x]) l -> flat_map f l = map g l.
Proof.
  induction 1 as [|x l Hx _ IH]; [reflexivity|].
  simpl. now rewrite Hx, IH.
Qed.

(** With a positive tokenizer every group becomes a chunk. *)
Lemma chunk_document_groups get_encoding (d : document) (nl : list chunk) :
  encoder_positive get_encoding ->
  512 < num_tokens_from_string get_encoding (Some (content d)) cl100k_base ->
  chunk_document get_encoding d nl
  = nl ++ map (chunk_of_group get_encoding d) (word_groups get_encoding d).
Proof.
  intros Hpos Hbig. rewrite chunk_document_oversized by assumption.
  f_equal. apply flat_map_singletons.
  eapply Forall_impl; [|apply word_groups_words].
  intros g [Hne Hg]. now apply emit_positive.
Qed.

Lemma chunk_of_group_words get_encoding (d : document) (g : list str) :
  Forall is_word g ->
  split (chunk_content (chunk_of_group get_encoding d g)) = g.
Proof. intros Hg. now apply split_join. Qed.

(** C1: for a content of more than 512 tokens the chunker appends what
    the word groups of the loop emit, and the loop assembles exactly
    [ceil(total_words / 384)] word groups, 384 being the ideal number of
    words per chunk and [total_words] the length of the split word list;
    for 2000 words there are 6 groups, the last one the remaining 80
    words.  With a tokenizer that counts at least one token in a text
    that is not empty, every group is emitted: as many chunks, and for
    2000 words 6 chunks, the last holding the remaining 80 words. *)
Theorem chunk_loop_group_count get_encoding (d : document) :
  512 < num_tokens_from_string get_encoding (Some (content d)) cl100k_base ->
  let words := split (content d) in
  let total_words := length words in
  ideal_size = 384
  /\ chunk_document get_encoding d []
     = flat_map (emit get_encoding d) (word_groups get_encoding d)
  /\ length (word_groups get_encoding d) = ceil_div total_words ideal_size
  /\ (total_words = 2000 ->
      length (word_groups get_encoding d) = 6
      /\ nth_error (word_groups get_encoding d) 5 = Some (skipn (5 * 384) words)
      /\ length (skipn (5 * 384) words) = 80)
  /\ (encoder_positive get_encoding ->
      chunk_document get_encoding d []
      = map (chunk_of_group get_encoding d) (word_groups get_encoding d)
      /\ length (chunk_document get_encoding d [])
         = ceil_div total_words ideal_size
      /\ (total_words = 2000 ->
          length (chunk_document get_encoding d []) = 6
          /\ exists c,
              nth_error (chunk_document get_encoding d []) 5 = Some c
              /\ split (chunk_content c) = skipn (5 * 384) words
              /\ length (split (chunk_content c)) = 80)).
Proof.
  intros Hbig words total_words. subst total_words. split; [reflexivity|].
  split; [now apply (chunk_document_oversized get_encoding d [])|].
  split; [apply word_groups_length|].
  assert (length words = 2000 ->
          word_groups get_encoding d
          = map (fun j => slice words (j * ideal_size)
                            (Nat.min ((j + 1) * ideal_size) 2000))
                (seq 0 6)) as Hg.
  { intros H2000. rewrite word_groups_slices. fold words.
    rewrite H2000. reflexivity. }
  assert (length words = 2000 ->
          slice words (5 * ideal_size) (Nat.min ((5 + 1) * ideal_size) 2000)
          = skipn (5 * 384) words) as Hlast.
  { intros H2000. unfold slice. apply firstn_all2. rewrite length_skipn.
    fold words. rewrite H2000.
    unfold ideal_size. apply Nat.eq_le_incl. reflexivity. }
  assert (length words = 2000 ->
          nth_error (word_groups get_encoding d) 5
          = Some (skipn (5 * 384) words)) as Hnth.
  { intros H2000. rewrite (Hg H2000), nth_error_map.
    change (nth_error (seq 0 6) 5) with (Some 5). cbn [option_map].
    now rewrite (Hlast H2000). }
  assert (length words = 2000 -> length (skipn (5 * 384) words) = 80) as H80.
  { intros H2000. rewrite length_skipn. fold words. rewrite H2000.
    reflexivity. }
  split.
  - intros H2000. split; [|split].
    + rewrite word_groups_length. fold words. rewrite H2000. reflexivity.
    + now apply Hnth.
    + now apply H80.
  - intros Hpos. rewrite chunk_document_groups by assumption. cbn [app].
    split; [reflexivity|].
    rewrite length_map, word_groups_length. split; [reflexivity|].
    fold words. intros H2000. rewrite H2000. split; [reflexivity|].
    exists (chunk_of_group get_encoding d (skipn (5 * 384) words)).
    assert (Forall is_word (skipn (5 * 384) words)) as Hw.
    { rewrite <- (Hlast H2000). apply slice_Forall, split_words. }
    split; [|split].
    + rewrite nth_error_map, (Hnth H2000). reflexivity.
    + now apply chunk_of_group_words.
    + rewrite chunk_of_group_words by assumption. now apply H80.
Qed.

Lemma chunk_loop_group_count_witness :
  length (chunk_document unit_encoding two_thousand_words []) = 6.
Proof.
  assert (512 < num_tokens_from_string unit_encoding
                  (Some (content two_thousand_words)) cl100k_base) as Hbig.
  { apply Nat.ltb_lt. vm_compute. reflexivity. }
  assert (encoder_positive unit_encoding) as Hpos.
  { intros s Hs. exact Hs. }
  assert (length (split (content two_thousand_words)) = 2000) as Hlen.
  { vm_compute. reflexivity. }
  destruct (chunk_loop_group_count unit_encoding two_thousand_words Hbig)
    as [_ [_ [_ [_ Hchunks]]]].
  destruct (Hchunks Hpos) as [_ [_ Hsix]].
  exact (proj1 (Hsix Hlen)).
Defined.

(** C2: for a content of more than 512 tokens the groups are the
    consecutive slices from [j * 384] to [(j + 1) * 384], the end clamped
    to the number of words, and laid end to end they are the whole
    whitespace-split word list; with a tokenizer that counts at least one
    token in a text that is not empty, the words of the emitted chunks,
    concatenated in emission order, are that word list. *)
Theorem chunk_words_reconstruct get_encoding (d : document) :
  512 < num_tokens_from_string get_encoding (Some (content d)) cl100k_base ->
  let words := split (content d) in
  concat (word_groups get_encoding d) = words
  /\ (forall j, j < length (word_groups get_encoding d) ->
        nth_error (word_groups get_encoding d) j
        = Some (slice words (j * ideal_size)
                      (Nat.min ((j + 1) * ideal_size) (length words))))
  /\ (encoder_positive get_encoding ->
      concat (map (fun c => split (chunk_content c))
                  (chunk_document get_encoding d [])) = words).
Proof.
  intros Hbig words. split; [|split].
  - apply word_groups_concat.
  - intros j Hj. rewrite word_groups_slices in *.
    rewrite length_map, length_seq in Hj.
    rewrite nth_error_map, nth_error_seq.
    apply Nat.ltb_lt in Hj. rewrite Hj. reflexivity.
  - intros Hpos. rewrite chunk_document_groups by assumption. cbn [app].
    rewrite map_map.
    rewrite (map_ext_in _ (fun g => g)), map_id.
    + apply word_groups_concat.
    + intros g Hg. apply chunk_of_group_words.
      pose proof (word_groups_words get_encoding d) as Hall.
      rewrite Forall_forall in Hall. now apply Hall.
Qed.

Lemma chunk_words_reconstruct_witness :
  concat (map (fun c => split (chunk_content c))
              (chunk_document unit_encoding two_thousand_words []))
  = split (content two_thousand_words).
Proof.
  assert (512 < num_tokens_from_string unit_encoding
                  (Some (content two_thousand_words)) cl100k_base) as Hbig.
  { apply Nat.ltb_lt. vm_compute. reflexivity. }
  assert (encoder_positive unit_encoding) as Hpos.
  { intros s Hs. exact Hs. }
  exact (proj2 (proj2 (chunk_words_reconstruct unit_encoding two_thousand_words Hbig))
               Hpos).
Defined.

(** C3: a content of at most 512 tokens is appended as one chunk: the
    content unchanged, with the title, the url and the measured count. *)
Theorem small_document_single_chunk get_encoding (d : document)
        (new_list0 : list chunk) :
  num_tokens_from_string get_encoding (Some (content d)) cl100k_base <= 512 ->
  chunk_document get_encoding d new_list0
  = new_list0
    ++ [ {| chunk_title := title d;
            chunk_content := content d;
            chunk_url := url d;
            chunk_tokens :=
              num_tokens_from_string get_encoding (Some (content d))
                                     cl100k_base |} ].
Proof.
  intros Hsmall. unfold chunk_document.
  apply Nat.leb_le in Hsmall. now rewrite Hsmall.
Qed.

Lemma small_document_single_chunk_witness :
  chunk_document unit_encoding short_post []
  = [ {| chunk_title := title short_post;
         chunk_content := content short_post;
         chunk_url := url short_post;
         chunk_tokens := 18 |} ].
Proof.
  apply (small_document_single_chunk unit_encoding short_post []).
  apply Nat.leb_le. vm_compute. reflexivity.
Defined.

(** C6: every chunk the loop appends for an oversized content has a token
    count above zero, which is the measured count of its text; a group
    that measures zero tokens appends nothing. *)
Theorem emitted_chunks_have_tokens get_encoding (d : document)
        (new_list0 : list chunk) :
  512 < num_tokens_from_string get_encoding (Some (content d)) cl100k_base ->
  let emitted := flat_map (emit get_encoding d) (word_groups get_encoding d) in
  chunk_document get_encoding d new_list0 = new_list0 ++ emitted
  /\ Forall (fun c =>
               0 < chunk_tokens c
               /\ chunk_tokens c
                  = num_tokens_from_string get_encoding
                      (Some (chunk_content c)) cl100k_base) emitted
  /\ forall g,
       num_tokens_from_string get_encoding (Some (join [SPACE] g)) cl100k_base = 0 ->
       emit get_encoding d g = [].
Proof.
  intros Hbig emitted. split; [|split].
  - now apply chunk_document_oversized.
  - apply Forall_forall. intros c Hc. unfold emitted in Hc.
    apply in_flat_map in Hc as [g [_ Hc]]. unfold emit in Hc.
    destruct (0 <? _) eqn:E; [|contradiction].
    destruct Hc as [<-|[]]. cbn [chunk_tokens chunk_content].
    apply Nat.ltb_lt in E. split; [exact E|reflexivity].
  - intros g Hz. unfold emit. now rewrite Hz.
Qed.

Lemma emitted_chunks_have_tokens_witness :
  Forall (fun c => 0 < chunk_tokens c
                   /\ chunk_tokens c
                      = num_tokens_from_string unit_encoding
                          (Some (chunk_content c)) cl100k_base)
         (flat_map (emit unit_encoding two_thousand_words)
                   (word_groups unit_encoding two_thousand_words)).
Proof.
  assert (512 < num_tokens_from_string unit_encoding
                  (Some (content two_thousand_words)) cl100k_base) as Hbig.
  { apply Nat.ltb_lt. vm_compute. reflexivity. }
  exact (proj1 (proj2
           (emitted_chunks_have_tokens unit_encoding two_thousand_words [] Hbig))).
Defined.



(** C9: the filter that removes the elements equal to one space leaves
    the split word list as it is, since no word of a whitespace split is a
    space or empty; the chunker without the filter line is the same
    function. *)
Theorem space_filter_is_identity :
  (forall s : str,
     filter (fun x => negb (str_eqb x [SPACE])) (split s) = split s)
  /\ (forall s : str, ~ In [SPACE] (split s) /\ ~ In [] (split s))
  /\ (forall get_encoding (d : document) (new_list0 : list chunk),
        chunk_document get_encoding d new_list0
        = chunk_document_unfiltered get_encoding d new_list0).
Proof.
  split; [|split].
  - intros s. apply filter_space_words, split_words.
  - intros s. pose proof (split_words s) as Hall.
    rewrite Forall_forall in Hall. split; intros Hin.
    + destruct (Hall _ Hin) as [_ Hw].
      inversion Hw as [|? ? Hc _]; subst. discriminate.
    + destruct (Hall _ Hin) as [Hne _]. now apply Hne.
  - intros get_encoding d nl.
    unfold chunk_document, chunk_document_unfiltered.
    now rewrite chunk_words_split.
Qed.

(** ** Facts about the services and the store *)

Section ServicesFacts.

Variable vector : Type.
Variable K : Type.
Variable distance : vector -> vector -> K.
Variable leb : K -> K -> bool.
Variable openai_embeddings_create : str -> str -> result (list vector).
Variable openai_chat_completions_create :
  str -> list message -> nat -> nat -> result (list str).
Variable ai_openai_embed : str -> str -> result vector.
Variable ai_openai_chat_complete : str -> list message -> result (list str).

(** *** Facts about [ORDER BY ... LIMIT] *)

Lemma insert_by_perm {A} (key : A -> K) (x : A) (l : list A) :
  Permutation (insert_by leb key x l) (x :: l).
Proof.
  induction l as [|y l IH]; simpl; [apply Permutation_refl|].
  destruct (leb (key x) (key y)); [apply Permutation_refl|].
  eapply Permutation_trans; [apply perm_skip, IH|apply perm_swap].
Qed.

Lemma order_by_perm {A} (key : A -> K) (l : list A) :
  Permutation (order_by leb key l) l.
Proof.
  induction l as [|x l IH]; simpl; [apply perm_nil|].
  eapply Permutation_trans; [apply insert_by_perm|now apply perm_skip].
Qed.

Lemma order_by_length {A} (key : A -> K) (l : list A) :
  length (order_by leb key l) = length l.
Proof. apply Permutation_length, order_by_perm. Qed.

Lemma nearest3_length (q : vector) (table : list (stored_row vector)) :
  length (nearest3 distance leb q table) = Nat.min 3 (length table).
Proof. unfold nearest3. now rewrite length_firstn, order_by_length. Qed.

Lemma firstn_incl {A} (n : nat) (l : list A) : incl (firstn n l) l.
Proof.
  intros x Hx. rewrite <- (firstn_skipn n l). apply in_or_app. now left.
Qed.

Lemma firstn_Sorted {A} (R : A -> A -> Prop) (l : list A) (n : nat) :
  Sorted R l -> Sorted R (firstn n l).
Proof.
  intros Hs. revert n. induction Hs as [|x l Hs IH Hd]; intros n.
  - now rewrite firstn_nil.
  - destruct n as [|n]; [constructor|]. simpl. constructor; [apply IH|].
    destruct Hd as [|y l' Hxy]; [rewrite firstn_nil; constructor|].
    destruct n; constructor. assumption.
Qed.

Section Ordered.

(** [ORDER BY] compares any two keys. *)
Hypothesis leb_total : forall a b : K, leb a b = true \/ leb b a = true.

Lemma insert_by_Sorted {A} (key : A -> K) (x : A) (l : list A) :
  Sorted (fun a b => leb (key a) (key b) = true) l ->
  Sorted (fun a b => leb (key a) (key b) = true) (insert_by leb key x l).
Proof.
  induction 1 as [|y l Hs IH Hd]; simpl.
  - repeat constructor.
  - destruct (leb (key x) (key y)) eqn:E.
    + constructor; [now constructor|now constructor].
    + constructor; [exact IH|].
      assert (leb (key y) (key x) = true) as Hyx.
      { destruct (leb_total (key x) (key y)); congruence. }
      destruct Hd as [|z l' Hyz]; simpl.
      * now constructor.
      * destruct (leb (key x) (key z)); now constructor.
Qed.

Lemma order_by_Sorted {A} (key : A -> K) (l : list A) :
  Sorted (fun a b => leb (key a) (key b) = true) (order_by leb key l).
Proof.
  induction l as [|x l IH]; simpl; [constructor|].
  now apply insert_by_Sorted.
Qed.

(** C5: the top-3 query answers without an error, with the contents of
    [min 3 n] rows of a store of [n] rows: 3 rows when the store holds at
    least 3, all of them when it holds fewer, none when it is empty; the
    rows are rows of the store in non-decreasing distance to the query
    vector, and the store is left as it was. *)
Theorem top3_row_count (query_embedding : vector) (w : world vector) :
  let rows := nearest3 distance leb query_embedding (embeddings w) in
  get_top3_similar_docs distance leb query_embedding w
  = (Ok (map (@row_content vector) rows),
     record_call (CursorExecute top3_statement [PVector query_embedding]) w)
  /\ length rows = Nat.min 3 (length (embeddings w))
  /\ (3 <= length (embeddings w) -> length rows = 3)
  /\ (length (embeddings w) < 3 -> length rows = length (embeddings w))
  /\ (embeddings w = [] -> rows = [])
  /\ Sorted (fun a b =>
               leb (distance (row_embedding a) query_embedding)
                   (distance (row_embedding b) query_embedding) = true) rows
  /\ incl rows (embeddings w).
Proof.
  intros rows. pose proof (nearest3_length query_embedding (embeddings w)) as Hlen.
  fold rows in Hlen.
  split; [reflexivity|]. split; [exact Hlen|].
  split; [lia|]. split; [lia|]. split; [|split].
  - intros Hnil. rewrite Hnil in Hlen. simpl in Hlen.
    destruct rows; [reflexivity|discriminate].
  - apply firstn_Sorted, order_by_Sorted.
  - intros r Hr. apply firstn_incl in Hr.
    eapply Permutation_in; [apply order_by_perm|exact Hr].
Qed.

End Ordered.

(** *** Facts about the adapters *)

Lemma replace_length (old new : codepoint) (s : str) :
  length (replace old new s) = length s.
Proof. apply length_map. Qed.

Lemma replace_removes (old new : codepoint) (s : str) :
  new <> old -> ~ In old (replace old new s).
Proof.
  intros Hne Hin. unfold replace in Hin.
  apply in_map_iff in Hin as [c [Hc _]].
  destruct (N.eqb c old) eqn:E; [congruence|].
  apply N.eqb_neq in E. congruence.
Qed.

Lemma replace_nth (old new : codepoint) (s : str) (i : nat) :
  nth_error (replace old new s) i
  = option_map (fun c => if N.eqb c old then new else c) (nth_error s i).
Proof. apply nth_error_map. Qed.

(** C7: the adapter sends one request to the embedding service, for the
    model [text-embedding-3-small] and the text with every newline
    replaced by a space (same length, no newline left, every other
    character kept), and returns the embedding of the first element of
    the response, the only one when the response has one. *)
Theorem get_embeddings_request (text : str) (w : world vector) :
  let input := replace NEWLINE SPACE text in
  let model := lit "text-embedding-3-small" in
  snd (get_embeddings openai_embeddings_create text w)
  = record_call (EmbeddingsCreate vector model input) w
  /\ length input = length text
  /\ ~ In NEWLINE input
  /\ (forall i, nth_error input i
                = option_map (fun c => if N.eqb c NEWLINE then SPACE else c)
                             (nth_error text i))
  /\ (forall v rest,
        openai_embeddings_create model input = Ok (v :: rest) ->
        fst (get_embeddings openai_embeddings_create text w) = Ok v)
  /\ (forall e,
        openai_embeddings_create model input = Raise e ->
        fst (get_embeddings openai_embeddings_create text w) = Raise e).
Proof.
  intros input model.
  assert (forall r, openai_embeddings_create model input = r ->
                    get_embeddings openai_embeddings_create text w
                    = match r with
                      | Ok response =>
                          index response 0
                                (record_call
                                   (EmbeddingsCreate vector model input) w)
                      | Raise e =>
                          (Raise e,
                           record_call (EmbeddingsCreate vector model input) w)
                      end) as Hrun.
  { intros r Hr. unfold get_embeddings, bind, request.
    fold model. fold input. rewrite Hr. now destruct r. }
  split.
  - rewrite (Hrun _ eq_refl).
    destruct (openai_embeddings_create model input) as [[|v rest]|e];
      reflexivity.
  - split; [apply replace_length|].
    split; [apply replace_removes; discriminate|].
    split; [intros i; apply replace_nth|].
    split.
    + intros v rest Hr. now rewrite (Hrun _ Hr).
    + intros e Hr. now rewrite (Hrun _ Hr).
Qed.

(** *** The answer synthesizer on a store of fewer than three rows *)

(** C4: with the embedding of the query obtained and fewer than three
    rows in the store, [process_input_with_retrieval] raises [IndexError]
    on indexing the retrieved rows; the calls made are the embedding
    request and the top-3 query, and no completion request. *)
Theorem process_input_short_store (user_input : str) (w : world vector)
        (v : vector) (rest : list vector) :
  openai_embeddings_create (lit "text-embedding-3-small")
                           (replace NEWLINE SPACE user_input)
  = Ok (v :: rest) ->
  length (embeddings w) < 3 ->
  process_input_with_retrieval distance leb openai_embeddings_create
    openai_chat_completions_create user_input w
  = (Raise IndexError,
     record_call (CursorExecute top3_statement [PVector v])
       (record_call (EmbeddingsCreate vector (lit "text-embedding-3-small")
                                      (replace NEWLINE SPACE user_input)) w)).
Proof.
  intros Hemb Hshort.
  unfold process_input_with_retrieval, get_embeddings.
  unfold bind at 1 2. unfold request at 1. rewrite Hemb.
  change (index (v :: rest) 0) with (@ret vector vector v). unfold ret at 1.
  unfold bind at 1. unfold get_top3_similar_docs, query_store.
  set (w1 := record_call (EmbeddingsCreate _ _ _) w).
  assert (length (map (@row_content vector)
                      (nearest3 distance leb v (embeddings w1))) < 3) as Hl.
  { rewrite length_map, nearest3_length. simpl embeddings. lia. }
  destruct (map (@row_content vector) (nearest3 distance leb v (embeddings w1)))
    as [|a [|b [|c l]]]; try reflexivity.
  simpl in Hl. lia.
Qed.

(** The sibling path of the pgai notebook: with no row in the view, the
    context is the empty string and the completion is still requested,
    with the prompt [Query: ... Context: ] ending in an empty context. *)
Lemma answer_with_context_empty_view (query : str) (w : world vector)
      (q : vector)
      (choices : list str) :
  ai_openai_embed (lit "text-embedding-3-small") query = Ok q ->
  products_embedding w = [] ->
  ai_openai_chat_complete
    (lit "gpt-4o-mini")
    [ {| role := lit "system";
         message_content := lit "you are a helpful assistant" |};
      {| role := lit "user";
         message_content :=
           lit "Query: " ++ query ++ [NEWLINE] ++ lit "Context: " ++ [] |} ]
  = Ok choices ->
  retrieve_context distance leb ai_openai_embed query w
  = (Ok [], record_call (CursorExecute retrieve_statement [PText vector query]) w)
  /\ answer_with_context distance leb ai_openai_embed ai_openai_chat_complete
       query w
     = (Ok (nth_error choices 0),
        record_call
          (CursorExecute generate_statement
             [PText vector (lit "Query: " ++ query ++ [NEWLINE]
                         ++ lit "Context: " ++ [])])
          (record_call (CursorExecute retrieve_statement [PText vector query]) w)).
Proof.
  intros Hemb Hview Hchat.
  assert (retrieve_context distance leb ai_openai_embed query w
          = (Ok [], record_call (CursorExecute retrieve_statement [PText vector query]) w))
    as Hctx.
  { unfold retrieve_context, bind, query_store. rewrite Hemb, Hview.
    reflexivity. }
  split; [exact Hctx|].
  unfold answer_with_context, bind. rewrite Hctx.
  unfold generate_response, query_store. now rewrite Hchat.
Qed.

End ServicesFacts.

(** ** Facts about the text format of COPY *)

Lemma scan_char_plain (eol : eol_type) (c : codepoint) :
  escape_free c -> c <> NEWLINE -> scan_char eol c = Append Plain.
Proof.
  intros [Hb Hr] Hn. unfold scan_char.
  apply N.eqb_neq in Hb, Hr, Hn. now rewrite Hr, Hn, Hb.
Qed.

Lemma scan_char_newline (eol : eol_type) :
  eol = EOL_UNKNOWN \/ eol = EOL_NL ->
  scan_char eol NEWLINE = EndOfLine EOL_NL.
Proof. intros [->| ->]; reflexivity. Qed.

(** A stretch without backslash, carriage return or newline, then a
    newline: one line. *)
Lemma read_lines_line (eol : eol_type) (l cur rest : str) :
  eol = EOL_UNKNOWN \/ eol = EOL_NL ->
  Forall escape_free l -> ~ In NEWLINE l ->
  read_lines eol Plain cur (l ++ NEWLINE :: rest)
  = cons_line (cur ++ l) (read_lines EOL_NL Plain [] rest).
Proof.
  intros Heol Hl. revert cur. induction Hl as [|c l Hc _ IH]; intros cur Hn.
  - cbn [app read_lines]. rewrite (scan_char_newline Heol).
    now rewrite app_nil_r.
  - cbn [app read_lines]. rewrite scan_char_plain.
    + rewrite IH; [now rewrite <- app_assoc|].
      intros Hin. apply Hn. now right.
    + exact Hc.
    + intros E. apply Hn. now left.
Qed.

(** With newlines inside, the stretch gives one line more per newline. *)
Lemma read_lines_count (eol : eol_type) (t cur rest : str) :
  eol = EOL_UNKNOWN \/ eol = EOL_NL ->
  Forall escape_free t ->
  exists lines,
    length lines = S (count_occ N.eq_dec t NEWLINE)
    /\ read_lines eol Plain cur (t ++ NEWLINE :: rest)
       = (lines ++ fst (read_lines EOL_NL Plain [] rest),
          snd (read_lines EOL_NL Plain [] rest)).
Proof.
  intros Heol Ht. revert eol Heol cur.
  induction Ht as [|c t Hc _ IH]; intros eol Heol cur.
  - exists [cur]. split; [reflexivity|].
    cbn [app read_lines]. now rewrite (scan_char_newline Heol).
  - cbn [app read_lines]. destruct (N.eq_dec c NEWLINE) as [->|Hn].
    + rewrite (scan_char_newline Heol).
      destruct (IH EOL_NL (or_intror eq_refl) []) as [lines [Hlen Hrun]].
      exists (cur :: lines). split.
      * cbn [length count_occ]. rewrite Hlen.
        now destruct (N.eq_dec NEWLINE NEWLINE).
      * rewrite Hrun. reflexivity.
    + rewrite (scan_char_plain eol Hc Hn).
      destruct (IH eol Heol (cur ++ [c])) as [lines [Hlen Hrun]].
      exists lines. split; [|exact Hrun].
      rewrite Hlen. cbn [count_occ]. now destruct (N.eq_dec c NEWLINE).
Qed.

Lemma output_cons (p : product) (subset : list product) :
  insert_subset_data_output (p :: subset)
  = product_line p ++ NEWLINE :: insert_subset_data_output subset.
Proof.
  unfold insert_subset_data_output, product_line. cbn [flat_map].
  now rewrite <- !app_assoc.
Qed.

Lemma count_occ_product_line (p : product) (c : codepoint) :
  count_occ N.eq_dec (product_line p) c
  = count_occ N.eq_dec (name p) c
    + (if N.eq_dec TAB c then 1 else 0)
    + count_occ N.eq_dec (description p) c.
Proof.
  unfold product_line. rewrite !count_occ_app.
  change (count_occ N.eq_dec [TAB] c) with (if N.eq_dec TAB c then 1 else 0).
  destruct (N.eq_dec TAB c); apply Nat.add_assoc.
Qed.

Lemma product_line_newlines (p : product) :
  count_occ N.eq_dec (product_line p) NEWLINE = inner_newlines p.
Proof.
  rewrite count_occ_product_line. unfold inner_newlines.
  destruct (N.eq_dec TAB NEWLINE) as [E|_]; [discriminate E|].
  now rewrite Nat.add_0_r.
Qed.

Lemma copy_safe_char_spec (c : codepoint) :
  copy_safe_char c = true ->
  valid_char c = true /\ c <> TAB /\ c <> NEWLINE /\ escape_free c.
Proof.
  unfold copy_safe_char, escape_free. intros H.
  apply andb_prop in H as [H Hb]. apply andb_prop in H as [H Hr].
  apply andb_prop in H as [H Hn]. apply andb_prop in H as [Hv Ht].
  apply negb_true_iff, N.eqb_neq in Hb, Hr, Hn, Ht. auto.
Qed.

Lemma copy_safe_field_spec (w : str) :
  forallb copy_safe_char w = true ->
  forallb valid_char w = true
  /\ ~ In TAB w /\ ~ In NEWLINE w /\ ~ In BACKSLASH w /\ Forall escape_free w.
Proof.
  induction w as [|c w IH]; intros H.
  - repeat split; auto.
  - cbn [forallb] in H. apply andb_prop in H as [Hc Hw].
    apply copy_safe_char_spec in Hc as [Hv [Ht [Hn [Hb Hr]]]].
    destruct (IH Hw) as [Hv' [Ht' [Hn' [Hb' He']]]].
    split; [cbn [forallb]; now rewrite Hv, Hv'|].
    repeat split; try (intros [E|E]; [congruence|contradiction]).
    constructor; [split; assumption|assumption].
Qed.

(** Characters that are neither the delimiter nor a backslash are taken
    into the field as they are. *)
Lemma scan_fields_plain (sep : codepoint) (w rest : str)
      (done : list (option str)) (raw out : str) :
  ~ In sep w -> ~ In BACKSLASH w ->
  scan_fields sep {| fs_fields := done; fs_raw := raw; fs_out := out;
                     fs_esc := NoEscape |} (w ++ rest)
  = scan_fields sep {| fs_fields := done; fs_raw := raw ++ w;
                       fs_out := out ++ w; fs_esc := NoEscape |} rest.
Proof.
  revert raw out. induction w as [|c w IH]; intros raw out Hs Hb.
  - now rewrite !app_nil_r.
  - cbn [app scan_fields field_step fs_esc]. unfold plain_char.
    assert (N.eqb c sep = false) as ->
        by (apply N.eqb_neq; intros E; apply Hs; now left).
    assert (N.eqb c BACKSLASH = false) as ->
        by (apply N.eqb_neq; intros E; apply Hb; now left).
    cbn [fs_fields fs_raw fs_out]. rewrite IH.
    + now rewrite <- !app_assoc.
    + intros Hin. apply Hs. now right.
    + intros Hin. apply Hb. now right.
Qed.

Lemma not_null_string (w : str) :
  ~ In BACKSLASH w -> str_eqb w [BACKSLASH; 78%N] = false.
Proof.
  intros Hb. destruct (str_eqb w [BACKSLASH; 78%N]) eqn:E; [|reflexivity].
  apply str_eqb_eq in E. subst w. exfalso. apply Hb. now left.
Qed.

Lemma read_fields_product_line (p : product) :
  copy_safe_product p ->
  read_fields TAB (product_line p)
  = CopyOk [Some (name p); Some (description p)].
Proof.
  intros [Hn Hd].
  apply copy_safe_field_spec in Hn as [_ [Hnt [_ [Hnb _]]]].
  apply copy_safe_field_spec in Hd as [_ [Hdt [_ [Hdb _]]]].
  unfold read_fields, product_line.
  rewrite scan_fields_plain by assumption.
  cbn [app scan_fields field_step fs_esc]. unfold plain_char.
  rewrite N.eqb_refl. unfold close_field. cbn [fs_fields fs_raw fs_out app].
  rewrite not_null_string by assumption.
  rewrite <- (app_nil_r (description p)) at 1.
  rewrite scan_fields_plain by assumption.
  cbn [scan_fields finish_fields fs_esc app]. unfold close_field.
  cbn [fs_fields fs_raw fs_out app].
  now rewrite not_null_string.
Qed.

Lemma product_line_valid (p : product) :
  copy_safe_product p -> forallb valid_char (product_line p) = true.
Proof.
  intros [Hn Hd].
  apply copy_safe_field_spec in Hn as [Hnv _].
  apply copy_safe_field_spec in Hd as [Hdv _].
  unfold product_line. rewrite !forallb_app, Hnv, Hdv. reflexivity.
Qed.

Lemma read_lines_output (eol : eol_type) (subset : list product) :
  eol = EOL_UNKNOWN \/ eol = EOL_NL ->
  Forall copy_safe_product subset ->
  read_lines eol Plain [] (insert_subset_data_output subset)
  = (map product_line subset, ReadToEnd).
Proof.
  intros Heol H. revert eol Heol.
  induction H as [|p subset [Hn Hd] _ IH]; intros eol Heol; [reflexivity|].
  apply copy_safe_field_spec in Hn as [_ [_ [Hnn [_ Hne]]]].
  apply copy_safe_field_spec in Hd as [_ [_ [Hdn [_ Hde]]]].
  rewrite output_cons, read_lines_line.
  - rewrite (IH EOL_NL (or_intror eq_refl)). reflexivity.
  - exact Heol.
  - unfold product_line. apply Forall_app. split; [exact Hne|].
    constructor; [split; discriminate|exact Hde].
  - unfold product_line. intros Hin.
    apply in_app_or in Hin as [Hin|[Hin|Hin]];
      [contradiction|discriminate|contradiction].
Qed.

Lemma read_rows_output (subset : list product) :
  Forall copy_safe_product subset ->
  read_rows 2 TAB (map product_line subset)
  = CopyOk (map (fun p => [Some (name p); Some (description p)]) subset).
Proof.
  induction 1 as [|p subset Hp _ IH]; [reflexivity|].
  cbn [map read_rows].
  rewrite (product_line_valid Hp), (read_fields_product_line Hp), IH.
  reflexivity.
Qed.

Lemma products_of_rows_fields (subset : list product) :
  products_of_rows
    (map (fun p => [Some (name p); Some (description p)]) subset)
  = Some subset.
Proof.
  induction subset as [|[n d] subset IH]; [reflexivity|].
  cbn [map products_of_rows product_of_row name description].
  now rewrite IH.
Qed.

(** With nothing to escape in its fields, every product reaches the
    table as it was given. *)
Lemma insert_subset_data_safe (subset : list product) :
  Forall copy_safe_product subset ->
  copy_read 2 TAB (insert_subset_data_output subset)
  = CopyOk (map (fun p => [Some (name p); Some (description p)]) subset)
  /\ insert_subset_data subset = CopyOk subset.
Proof.
  intros H.
  assert (copy_read 2 TAB (insert_subset_data_output subset)
          = CopyOk (map (fun p => [Some (name p); Some (description p)])
                        subset)) as Hread.
  { unfold copy_read. cbv zeta.
    rewrite (read_lines_output (or_introl eq_refl) H). cbn [fst snd].
    now rewrite (read_rows_output H). }
  split; [exact Hread|].
  unfold insert_subset_data. now rewrite Hread, products_of_rows_fields.
Qed.

(** A field without tab or newline, by inspection of its characters. *)
Lemma plain_field_check (w : str) :
  forallb (fun c => negb (N.eqb c TAB) && negb (N.eqb c NEWLINE)) w = true ->
  plain_field w.
Proof.
  intros Hw. rewrite forallb_forall in Hw.
  split; intros Hin; apply Hw in Hin; discriminate Hin.
Qed.

Lemma escaped_tab_not_plain : ~ plain_product escaped_tab_product.
Proof.
  intros [[Ht _] _]. apply Ht. vm_compute. right; right; left; reflexivity.
Qed.

(** C10, as the code has it: when no name and no description holds a
    tab, a newline, a carriage return, a backslash or a character that
    is not valid in a text, COPY reads the payload as one row of two
    fields per product, the name and the description as they were, and
    these rows reach the table.  A tab in a name gives a line of three
    fields and a newline in a description two lines for one product:
    COPY fails.  So it does for two products without tab or newline
    whose first description ends in a backslash; a backslash before a
    letter is read as an escape, so that another text is stored; a
    carriage return inside a description is refused; and a
    tab after a backslash is read as part of the name, so that a product
    with a tab in its name gives one row of two fields. *)
Theorem copy_payload_read_back :
  (forall subset : list product,
     Forall copy_safe_product subset ->
     copy_read 2 TAB (insert_subset_data_output subset)
     = CopyOk (map (fun p => [Some (name p); Some (description p)]) subset)
     /\ insert_subset_data subset = CopyOk subset)
  /\ (read_fields TAB (product_line tabbed_product)
      = CopyOk [Some (lit "T-shirt"); Some (lit "blue"); Some (lit "cotton")]
      /\ insert_subset_data [tabbed_product] = CopyFails)
  /\ (read_lines EOL_UNKNOWN Plain []
                 (insert_subset_data_output [multiline_product])
      = ([lit "Mug" ++ [TAB] ++ lit "ceramic"; lit "white"], ReadToEnd)
      /\ insert_subset_data [multiline_product] = CopyFails)
  /\ (Forall plain_product backslash_products
      /\ insert_subset_data backslash_products = CopyFails)
  /\ (plain_product path_product
      /\ insert_subset_data [path_product]
         = CopyOk [ {| name := lit "Path";
                       description := lit "C:" ++ [TAB] ++ lit "emp" |} ])
  /\ (plain_product carriage_return_product
      /\ insert_subset_data [carriage_return_product] = CopyFails)
  /\ (~ plain_product escaped_tab_product
      /\ copy_read 2 TAB (insert_subset_data_output [escaped_tab_product])
         = CopyOk [[Some (lit "a" ++ [TAB] ++ lit "b"); Some (lit "c")]]).
Proof.
  split; [exact insert_subset_data_safe|].
  split; [split; vm_compute; reflexivity|].
  split; [split; vm_compute; reflexivity|].
  split; [split|split; [split|split; [split|split]]].
  - repeat constructor; apply plain_field_check; reflexivity.
  - vm_compute. reflexivity.
  - split; apply plain_field_check; reflexivity.
  - vm_compute. reflexivity.
  - split; apply plain_field_check; reflexivity.
  - vm_compute. reflexivity.
  - exact escaped_tab_not_plain.
  - vm_compute. reflexivity.
Qed.

(** C10, as it was stated, fails in both directions.  Two products that
    hold no tab and no newline, the first description ending in a
    backslash, are sent as two lines of text that COPY reads as one line
    of three fields: the precondition does not keep rows and fields
    aligned.  A product with a tab in its name, after a backslash, is
    read as one row of two fields: the alignment does not need the
    precondition. *)
Lemma plain_products_misread :
  (Forall plain_product backslash_products
   /\ read_lines EOL_UNKNOWN Plain []
                 (insert_subset_data_output backslash_products)
      = ([lit "x" ++ [TAB] ++ lit "a" ++ [BACKSLASH; NEWLINE] ++ lit "y"
          ++ [TAB] ++ lit "b"], ReadToEnd)
   /\ read_fields TAB (lit "x" ++ [TAB] ++ lit "a" ++ [BACKSLASH; NEWLINE]
                       ++ lit "y" ++ [TAB] ++ lit "b")
      = CopyOk [Some (lit "x"); Some (lit "a" ++ [NEWLINE] ++ lit "y");
                Some (lit "b")]
   /\ insert_subset_data backslash_products = CopyFails)
  /\ (~ plain_product escaped_tab_product
      /\ read_lines EOL_UNKNOWN Plain []
                    (insert_subset_data_output [escaped_tab_product])
         = ([lit "a" ++ [BACKSLASH; TAB] ++ lit "b" ++ [TAB] ++ lit "c"],
            ReadToEnd)
      /\ read_fields TAB (lit "a" ++ [BACKSLASH; TAB] ++ lit "b" ++ [TAB]
                          ++ lit "c")
         = CopyOk [Some (lit "a" ++ [TAB] ++ lit "b"); Some (lit "c")]).
Proof.
  split.
  - split; [repeat constructor; apply plain_field_check; reflexivity|].
    repeat split; vm_compute; reflexivity.
  - split; [exact escaped_tab_not_plain|].
    split; vm_compute; reflexivity.
Qed.

(** ** The services on concrete inputs *)

Lemma top3_row_count_witness :
  length (nearest3 gap Nat.leb 10 (embeddings store_of_four)) = 3.
Proof.
  assert (forall a b : nat, (a <=? b) = true \/ (b <=? a) = true) as Htotal.
  { intros a b. destruct (Nat.le_ge_cases a b) as [H|H];
      apply Nat.leb_le in H; auto. }
  apply (proj1 (proj2 (proj2 (top3_row_count gap Nat.leb Htotal 10 store_of_four)))).
  simpl. lia.
Defined.

Lemma process_input_short_store_witness :
  fst (process_input_with_retrieval gap Nat.leb length_embedding
         fixed_completion (lit "How is Timescale used in IoT?") empty_store)
  = Raise IndexError.
Proof.
  rewrite (@process_input_short_store nat nat gap Nat.leb length_embedding
             fixed_completion (lit "How is Timescale used in IoT?")
             empty_store 29 []).
  - reflexivity.
  - reflexivity.
  - simpl. lia.
Defined.

(** ** Worked examples *)

Example split_example :
  split (lit "  hello" ++ [TAB] ++ lit "world " ++ [NEWLINE])
  = [lit "hello"; lit "world"].
Proof. reflexivity. Qed.

Example join_example :
  join [SPACE] [lit "a"; lit "b"; lit "c"] = lit "a b c".
Proof. reflexivity. Qed.

Example slice_example :
  slice [1; 2; 3; 4; 5] 1 3 = [2; 3]
  /\ slice [1; 2; 3; 4; 5] 3 9 = [4; 5]
  /\ slice [1; 2; 3; 4; 5] 7 9 = [].
Proof. repeat split. Qed.

Example chunk_count_example :
  chunk_count 0 = 0 /\ chunk_count 384 = 1 /\ chunk_count 385 = 2
  /\ chunk_count 2000 = 6.
Proof. repeat split. Qed.

Example group_sizes_example :
  map (@length str) (word_groups unit_encoding two_thousand_words)
  = [384; 384; 384; 384; 384; 80].
Proof. vm_compute. reflexivity. Qed.

(** With four rows in the store the synthesizer reaches the completion
    service, the three nearest contents in its prompt. *)
Example process_input_example :
  process_input_with_retrieval gap Nat.leb (fun _ _ => Ok [10])
    fixed_completion (lit "q") store_of_four
  = (Ok (lit "answer"),
     {| embeddings := embeddings store_of_four;
        products_embedding := [];
        calls :=
          [ EmbeddingsCreate nat (lit "text-embedding-3-small") (lit "q");
            CursorExecute top3_statement [PVector 10];
            ChatCompletionsCreate nat (lit "gpt-4o")
              [ {| role := lit "system"; message_content := system_message |};
                {| role := lit "user"; message_content := lit "```q```" |};
                {| role := lit "assistant";
                   message_content :=
                     lit "Relevant Timescale case studies information: "
                     ++ [NEWLINE] ++ lit " exact " ++ [NEWLINE]
                     ++ lit " near mid" |} ]
              0 1000 ] |}).
Proof. vm_compute. reflexivity. Qed.


(** ** Further properties: word counts *)

Lemma split_from_nil_iff (s cur : str) :
  split_from cur s = [] <-> cur = [] /\ forallb isspace s = true.
Proof.
  revert cur. induction s as [|c rest IH]; intros cur; simpl.
  - destruct cur; split; try tauto; try discriminate.
    intros [H _]. discriminate H.
  - destruct (isspace c) eqn:Hc; simpl.
    + destruct cur as [|c0 cur'].
      * rewrite IH. tauto.
      * split; [discriminate|]. intros [H _]. discriminate H.
    + rewrite IH. split; [|intros [_ H]; discriminate H].
      intros [H _]. destruct cur; discriminate H.
Qed.

Lemma split_from_length_bound (s cur : str) :
  2 * length (split_from cur s)
  <= length s + 1 + (match cur with [] => 0 | _ :: _ => 1 end).
Proof.
  revert cur. induction s as [|c rest IH]; intros cur; simpl split_from.
  - destruct cur; simpl; lia.
  - destruct (isspace c).
    + destruct cur as [|c0 cur'].
      * specialize (IH []). simpl in *. lia.
      * specialize (IH []). simpl in *. lia.
    + specialize (IH (cur ++ [c])).
      destruct (cur ++ [c]) eqn:E.
      * destruct cur; discriminate E.
      * simpl length in *. destruct cur; lia.
Qed.

Lemma split_from_app_space (a b cur : str) (c : codepoint) :
  isspace c = true ->
  split_from cur (a ++ c :: b) = split_from cur a ++ split b.
Proof.
  intros Hc. revert cur. induction a as [|x a IH]; intros cur; simpl.
  - rewrite Hc. now destruct cur.
  - destruct (isspace x).
    + destruct cur; [apply IH|]. simpl. f_equal. apply IH.
    + apply IH.
Qed.

(** X1: an essay has no word exactly when every character of it is
    whitespace (the empty essay among them). *)
Theorem essay_length_zero (essay : str) :
  get_essay_length essay = 0 <-> forallb isspace essay = true.
Proof.
  unfold get_essay_length, split. cbv zeta.
  rewrite length_zero_iff_nil, split_from_nil_iff. tauto.
Qed.

(** X2: words take at least one character each and are separated by at
    least one: twice the word count is at most the length plus one. *)
Theorem essay_length_bound (essay : str) :
  2 * get_essay_length essay <= length essay + 1.
Proof.
  unfold get_essay_length, split. cbv zeta.
  pose proof (split_from_length_bound essay []) as H. simpl in H. lia.
Qed.

(** X3: the words of two texts put together with a whitespace character
    between them are the words of the first followed by those of the
    second, so the essay lengths add up. *)
Theorem essay_length_concat (a b : str) (c : codepoint) :
  isspace c = true ->
  split (a ++ c :: b) = split a ++ split b
  /\ get_essay_length (a ++ c :: b) = get_essay_length a + get_essay_length b.
Proof.
  intros Hc.
  assert (split (a ++ c :: b) = split a ++ split b) as Hs
    by now apply split_from_app_space.
  split; [exact Hs|].
  unfold get_essay_length. cbv zeta. now rewrite Hs, length_app.
Qed.

Lemma essay_length_concat_witness :
  get_essay_length (lit "to be" ++ NEWLINE :: lit "or not")
  = get_essay_length (lit "to be") + get_essay_length (lit "or not").
Proof.
  apply (essay_length_concat (lit "to be") (lit "or not") NEWLINE).
  reflexivity.
Defined.

(** ** Further properties: the chunker over a dataframe *)

Lemma chunk_document_frame get_encoding (d : document) (nl : list chunk) :
  chunk_document get_encoding d nl = nl ++ chunk_document get_encoding d [].
Proof.
  destruct (num_tokens_from_string get_encoding (Some (content d)) cl100k_base
            <=? 512) eqn:E.
  - unfold chunk_document. now rewrite E.
  - apply Nat.leb_gt in E.
    now rewrite (chunk_document_oversized get_encoding d nl),
                (chunk_document_oversized get_encoding d []).
Qed.

Lemma chunk_dataframe_flat_map get_encoding (df : list document) :
  chunk_dataframe get_encoding df
  = flat_map (fun d => chunk_document get_encoding d []) df.
Proof.
  unfold chunk_dataframe.
  assert (forall acc,
            fold_left (fun nl d => chunk_document get_encoding d nl) df acc
            = acc ++ flat_map (fun d => chunk_document get_encoding d []) df)
    as H.
  { induction df as [|d df IH]; intros acc; simpl.
    - now rewrite app_nil_r.
    - rewrite IH, (chunk_document_frame get_encoding d acc).
      now rewrite app_assoc. }
  apply (H []).
Qed.

(** The chunks of one document, seen from either branch. *)
Lemma chunk_document_cases get_encoding (d : document) :
  let n := num_tokens_from_string get_encoding (Some (content d)) cl100k_base in
  (n <= 512
   /\ chunk_document get_encoding d []
      = [ {| chunk_title := title d; chunk_content := content d;
             chunk_url := url d; chunk_tokens := n |} ])
  \/ (512 < n
      /\ chunk_document get_encoding d []
         = flat_map (emit get_encoding d) (word_groups get_encoding d)).
Proof.
  intros n. destruct (le_lt_dec n 512) as [Hs|Hb].
  - left. split; [exact Hs|]. unfold chunk_document. fold n.
    apply Nat.leb_le in Hs. now rewrite Hs.
  - right. split; [exact Hb|].
    now apply (chunk_document_oversized get_encoding d []).
Qed.

Lemma in_emit get_encoding (d : document) (g : list str) (c : chunk) :
  In c (emit get_encoding d g) ->
  c = chunk_of_group get_encoding d g /\ 0 < chunk_tokens c.
Proof.
  unfold emit. cbv zeta.
  destruct (0 <? _) eqn:E; [|contradiction].
  intros [<-|[]]. split; [reflexivity|]. now apply Nat.ltb_lt in E.
Qed.

Lemma in_word_groups get_encoding (d : document) (g : list str) :
  In g (word_groups get_encoding d) ->
  g <> [] /\ Forall is_word g /\ length g <= ideal_size.
Proof.
  intros Hg.
  pose proof (word_groups_words get_encoding d) as Hall.
  rewrite Forall_forall in Hall. destruct (Hall g Hg) as [Hne Hw].
  split; [exact Hne|]. split; [exact Hw|].
  rewrite word_groups_slices in Hg.
  apply in_map_iff in Hg as [j [<- _]]. rewrite slice_length. lia.
Qed.

(** X4: the chunker only appends, and the chunks of a dataframe are the
    chunks of its documents one after the other; so chunking two
    dataframes in a row gives the chunks of the first followed by those
    of the second. *)
Theorem chunk_dataframe_app get_encoding (df1 df2 : list document) :
  (forall d nl,
      chunk_document get_encoding d nl = nl ++ chunk_document get_encoding d [])
  /\ chunk_dataframe get_encoding (df1 ++ df2)
     = chunk_dataframe get_encoding df1 ++ chunk_dataframe get_encoding df2
  /\ chunk_dataframe get_encoding df1
     = flat_map (fun d => chunk_document get_encoding d []) df1.
Proof.
  split; [apply chunk_document_frame|].
  rewrite !chunk_dataframe_flat_map. split; [apply flat_map_app|reflexivity].
Qed.

(** X5: every chunk of a dataframe carries the title and the url of one
    of its documents and the measured token count of its own text; a
    chunk of zero tokens is the whole content of its document. *)
Theorem chunk_dataframe_provenance get_encoding (df : list document) :
  Forall (fun c =>
            exists d,
              In d df
              /\ chunk_title c = title d
              /\ chunk_url c = url d
              /\ chunk_tokens c
                 = num_tokens_from_string get_encoding (Some (chunk_content c))
                                          cl100k_base
              /\ (0 < chunk_tokens c \/ chunk_content c = content d))
         (chunk_dataframe get_encoding df).
Proof.
  rewrite chunk_dataframe_flat_map. apply Forall_forall. intros c Hc.
  apply in_flat_map in Hc as [d [Hd Hc]]. exists d. split; [exact Hd|].
  destruct (chunk_document_cases get_encoding d) as [[_ E]|[_ E]];
    rewrite E in Hc.
  - destruct Hc as [<-|[]]. cbn. auto.
  - apply in_flat_map in Hc as [g [_ Hc]].
    apply in_emit in Hc as [-> Hpos]. cbn in *. auto.
Qed.

(** X6: a chunk cut from a content of more than 512 tokens holds at
    least one word and at most 384, and every group but the last holds
    exactly 384. *)
Theorem chunk_word_bound get_encoding (d : document) :
  512 < num_tokens_from_string get_encoding (Some (content d)) cl100k_base ->
  Forall (fun c => 1 <= get_essay_length (chunk_content c) <= ideal_size)
         (chunk_document get_encoding d [])
  /\ forall j, S j < length (word_groups get_encoding d) ->
       exists g, nth_error (word_groups get_encoding d) j = Some g
                 /\ length g = ideal_size.
Proof.
  intros Hbig. split.
  - rewrite (chunk_document_oversized get_encoding d []) by assumption.
    apply Forall_forall. intros c Hc.
    apply in_flat_map in Hc as [g [Hg Hc]].
    apply in_emit in Hc as [-> _].
    apply in_word_groups in Hg as [Hne [Hw Hlen]].
    unfold get_essay_length. cbv zeta.
    rewrite chunk_of_group_words by assumption.
    destruct g; [contradiction|]. simpl in *. lia.
  - intros j Hj. rewrite word_groups_slices in *.
    rewrite length_map, length_seq in Hj.
    rewrite nth_error_map, nth_error_seq.
    assert (j < chunk_count (length (split (content d)))) as Hj' by lia.
    apply Nat.ltb_lt in Hj'. rewrite Hj'. cbn [option_map plus].
    eexists. split; [reflexivity|].
    pose proof (@chunk_count_below (length (split (content d))) (S j) Hj).
    rewrite slice_length. lia.
Qed.

Lemma chunk_word_bound_witness :
  Forall (fun c => 1 <= get_essay_length (chunk_content c) <= ideal_size)
         (chunk_document unit_encoding two_thousand_words []).
Proof.
  apply (chunk_word_bound unit_encoding two_thousand_words).
  apply Nat.ltb_lt. vm_compute. reflexivity.
Defined.

Lemma list_sum_flat_map {A B} (f : A -> list B) (g : B -> nat) (l : list A) :
  list_sum (map g (flat_map f l))
  = list_sum (map (fun x => list_sum (map g (f x))) l).
Proof.
  induction l as [|x l IH]; [reflexivity|].
  simpl. now rewrite map_app, list_sum_app, IH.
Qed.

Lemma list_sum_length_concat {A} (ls : list (list A)) :
  list_sum (map (@length A) ls) = length (concat ls).
Proof.
  induction ls as [|l ls IH]; [reflexivity|].
  simpl. now rewrite length_app, IH.
Qed.

Lemma chunk_document_word_count get_encoding (d : document) :
  encoder_positive get_encoding ->
  list_sum (map (fun c => get_essay_length (chunk_content c))
                (chunk_document get_encoding d []))
  = get_essay_length (content d).
Proof.
  intros Hpos.
  destruct (chunk_document_cases get_encoding d) as [[_ E]|[Hbig _]].
  - rewrite E. simpl. lia.
  - rewrite (chunk_document_groups d [] Hpos Hbig). cbn [app].
    rewrite map_map.
    rewrite (map_ext_in _ (@length str)).
    + rewrite list_sum_length_concat, word_groups_concat. reflexivity.
    + intros g Hg. apply in_word_groups in Hg as [_ [Hw _]].
      unfold get_essay_length. cbv zeta.
      now rewrite chunk_of_group_words.
Qed.

Lemma chunk_document_length get_encoding (d : document) :
  encoder_positive get_encoding ->
  length (chunk_document get_encoding d [])
  = chunks_per_document get_encoding d.
Proof.
  intros Hpos. unfold chunks_per_document.
  destruct (chunk_document_cases get_encoding d) as [[Hs E]|[Hbig _]].
  - apply Nat.leb_le in Hs. rewrite Hs, E. reflexivity.
  - rewrite (chunk_document_groups d [] Hpos Hbig). cbn [app].
    apply Nat.leb_gt in Hbig. rewrite Hbig.
    rewrite length_map. apply word_groups_length.
Qed.

(** X7: with a tokenizer that counts at least one token in a text that
    is not empty, chunking loses and adds no word: the essay lengths of
    the chunks of a dataframe add up to those of its contents. *)
Theorem chunking_preserves_word_count get_encoding (df : list document) :
  encoder_positive get_encoding ->
  list_sum (map (fun c => get_essay_length (chunk_content c))
                (chunk_dataframe get_encoding df))
  = list_sum (map (fun d => get_essay_length (content d)) df).
Proof.
  intros Hpos. rewrite chunk_dataframe_flat_map, list_sum_flat_map.
  f_equal. apply map_ext. intros d. now apply chunk_document_word_count.
Qed.

Lemma chunking_preserves_word_count_witness :
  list_sum (map (fun c => get_essay_length (chunk_content c))
                (chunk_dataframe unit_encoding [short_post; two_thousand_words]))
  = list_sum (map (fun d => get_essay_length (content d))
                  [short_post; two_thousand_words]).
Proof.
  apply (chunking_preserves_word_count (get_encoding := unit_encoding)).
  intros s Hs. exact Hs.
Defined.

(** X8: with such a tokenizer the number of chunks of a dataframe is the
    sum over its documents of one for a content of at most 512 tokens
    and of [ceil(words / 384)] for a longer one. *)
Theorem chunk_dataframe_length get_encoding (df : list document) :
  encoder_positive get_encoding ->
  length (chunk_dataframe get_encoding df)
  = list_sum (map (chunks_per_document get_encoding) df).
Proof.
  intros Hpos. rewrite chunk_dataframe_flat_map.
  induction df as [|d df IH]; [reflexivity|].
  simpl. now rewrite length_app, IH, chunk_document_length.
Qed.

Lemma chunk_dataframe_length_witness :
  length (chunk_dataframe unit_encoding [short_post; two_thousand_words]) = 7.
Proof.
  rewrite (chunk_dataframe_length (get_encoding := unit_encoding)).
  - vm_compute. reflexivity.
  - intros s Hs. exact Hs.
Defined.

(** X9: a content of more than 512 tokens that holds no word gives no
    chunk at all, and with a tokenizer that counts at least one token in
    a text that is not empty this is the only way such a content gives
    none. *)
Theorem wordless_document_dropped get_encoding (d : document) :
  512 < num_tokens_from_string get_encoding (Some (content d)) cl100k_base ->
  (get_essay_length (content d) = 0 ->
   forall nl, chunk_document get_encoding d nl = nl)
  /\ (encoder_positive get_encoding ->
      chunk_document get_encoding d [] = [] ->
      get_essay_length (content d) = 0).
Proof.
  intros Hbig. unfold get_essay_length. cbv zeta. split.
  - intros Hz nl. rewrite (chunk_document_oversized get_encoding d nl Hbig).
    assert (word_groups get_encoding d = []) as ->.
    { apply length_zero_iff_nil. rewrite word_groups_length, Hz.
      rewrite <- chunk_count_ceil. reflexivity. }
    apply app_nil_r.
  - intros Hpos Hnil.
    rewrite (chunk_document_groups d [] Hpos Hbig) in Hnil. cbn [app] in Hnil.
    apply map_eq_nil in Hnil.
    rewrite <- (word_groups_concat get_encoding d), Hnil. reflexivity.
Qed.

Lemma wordless_document_dropped_witness :
  chunk_document unit_encoding blank_page [] = [].
Proof.
  apply (wordless_document_dropped unit_encoding blank_page).
  - apply Nat.ltb_lt. vm_compute. reflexivity.
  - vm_compute. reflexivity.
Defined.

(** ** Further properties: embedding, insertion and retrieval *)

Section PipelineFacts.

Variable vector : Type.
Variable K : Type.
Variable distance : vector -> vector -> K.
Variable leb : K -> K -> bool.
Variable openai_embeddings_create : str -> str -> result (list vector).
Variable openai_chat_completions_create :
  str -> list message -> nat -> nat -> result (list str).
Variable ai_openai_embed : str -> str -> result vector.
Variable ai_openai_chat_complete : str -> list message -> result (list str).

Lemma record_calls_nil (w : world vector) : record_calls [] w = w.
Proof. destruct w. unfold record_calls. simpl. now rewrite app_nil_r. Qed.

Lemma record_calls_cons (c : call vector) (l : list (call vector))
      (w : world vector) :
  record_calls l (record_call c w) = record_calls (c :: l) w.
Proof. unfold record_calls, record_call. simpl. now rewrite <- app_assoc. Qed.

Lemma get_embeddings_run (text : str) (w : world vector) :
  get_embeddings openai_embeddings_create text w
  = (first_embedding openai_embeddings_create text,
     record_call (embedding_request vector text) w).
Proof.
  unfold get_embeddings, first_embedding, embedding_request, bind, request.
  destruct (openai_embeddings_create _ _) as [[|v rest]|e]; reflexivity.
Qed.

Lemma get_completion_run (messages : list message) (w : world vector) :
  get_completion_from_messages openai_chat_completions_create messages w
  = (match openai_chat_completions_create (lit "gpt-4o") messages 0 1000 with
     | Ok (answer :: _) => Ok answer
     | Ok [] => Raise IndexError
     | Raise e => Raise e
     end,
     record_call (ChatCompletionsCreate vector (lit "gpt-4o") messages 0 1000) w).
Proof.
  unfold get_completion_from_messages, bind, request.
  destruct (openai_chat_completions_create _ _ _ _) as [[|a rest]|e];
    reflexivity.
Qed.

(** X10: the completion helper sends one request, for the model
    [gpt-4o] with temperature 0 and at most 1000 tokens, and returns the
    content of the first choice; a response without choices raises
    [IndexError] and an exception of the service propagates. *)
Theorem get_completion_contract (messages : list message) (w : world vector) :
  let response :=
    openai_chat_completions_create (lit "gpt-4o") messages 0 1000 in
  let run :=
    get_completion_from_messages openai_chat_completions_create messages w in
  snd run
  = record_call (ChatCompletionsCreate vector (lit "gpt-4o") messages 0 1000) w
  /\ (forall answer others, response = Ok (answer :: others) ->
                            fst run = Ok answer)
  /\ (response = Ok [] -> fst run = Raise IndexError)
  /\ (forall e, response = Raise e -> fst run = Raise e).
Proof.
  intros response run. unfold run. rewrite get_completion_run.
  fold response. cbn [fst snd]. split; [reflexivity|].
  split; [|split]; intros; subst response.
  - now rewrite H.
  - now rewrite H.
  - now rewrite H.
Qed.

Lemma append_embeddings_ok (new_list : list chunk) (vs : list vector)
      (w : world vector) :
  Forall2 (fun c v =>
             first_embedding openai_embeddings_create (chunk_content c) = Ok v)
          new_list vs ->
  append_embeddings openai_embeddings_create new_list w
  = (Ok (map (fun cv => {| embedded := fst cv; embeddings_column := snd cv |})
             (combine new_list vs)),
     record_calls (map (fun c => embedding_request vector (chunk_content c))
                       new_list) w).
Proof.
  intros H. revert w. induction H as [|c v cs vs Hc _ IH]; intros w.
  - simpl. unfold ret. now rewrite record_calls_nil.
  - cbn [append_embeddings]. unfold bind at 1.
    rewrite get_embeddings_run, Hc. unfold bind at 1. rewrite IH.
    unfold ret. cbn [combine map fst snd]. now rewrite record_calls_cons.
Qed.

Lemma append_embeddings_raise (done todo : list chunk) (c : chunk)
      (vs : list vector) (e : exn) (w : world vector) :
  Forall2 (fun c v =>
             first_embedding openai_embeddings_create (chunk_content c) = Ok v)
          done vs ->
  first_embedding openai_embeddings_create (chunk_content c) = Raise e ->
  append_embeddings openai_embeddings_create (done ++ c :: todo) w
  = (Raise e,
     record_calls (map (fun c => embedding_request vector (chunk_content c))
                       (done ++ [c])) w).
Proof.
  intros H Hc. revert w. induction H as [|c0 v cs vs Hc0 _ IH]; intros w.
  - cbn [app append_embeddings map]. unfold bind at 1.
    rewrite get_embeddings_run, Hc. reflexivity.
  - cbn [app append_embeddings]. unfold bind at 1.
    rewrite get_embeddings_run, Hc0. unfold bind at 1. rewrite IH.
    cbn [map app]. now rewrite record_calls_cons.
Qed.

(** X11: when the service answers every chunk with at least one
    embedding, the loop returns the entries of [new_list] in their order,
    each with the first embedding of its own response, after exactly one
    request per entry, in order, each for the entry's content with its
    newlines replaced by spaces; the tables are untouched. *)
Theorem append_embeddings_complete (new_list : list chunk) (vs : list vector)
        (w : world vector) :
  Forall2 (fun c v =>
             exists others,
               openai_embeddings_create (lit "text-embedding-3-small")
                 (replace NEWLINE SPACE (chunk_content c))
               = Ok (v :: others))
          new_list vs ->
  exists df_new w',
    append_embeddings openai_embeddings_create new_list w = (Ok df_new, w')
    /\ map (@embedded vector) df_new = new_list
    /\ map (@embeddings_column vector) df_new = vs
    /\ calls w'
       = calls w
         ++ map (fun c =>
                   EmbeddingsCreate vector (lit "text-embedding-3-small")
                     (replace NEWLINE SPACE (chunk_content c))) new_list
    /\ embeddings w' = embeddings w.
Proof.
  intros H.
  assert (Forall2 (fun c v =>
                     first_embedding openai_embeddings_create (chunk_content c)
                     = Ok v) new_list vs) as H'.
  { eapply Forall2_impl; [|exact H]. intros c v [others Hc].
    unfold first_embedding. now rewrite Hc. }
  eexists. eexists. split; [exact (append_embeddings_ok w H')|].
  pose proof (Forall2_length H) as Hlen.
  rewrite !map_map. cbn [embedded embeddings_column].
  split; [|split; [|split; reflexivity]].
  - rewrite <- (map_map fst (fun x => x)), map_id.
    clear -Hlen. revert vs Hlen.
    induction new_list as [|c cs IH]; intros [|v vs] Hlen;
      try discriminate; [reflexivity|].
    simpl. f_equal. apply IH. now injection Hlen.
  - rewrite <- (map_map snd (fun x => x)), map_id.
    clear -Hlen. revert vs Hlen.
    induction new_list as [|c cs IH]; intros [|v vs] Hlen;
      try discriminate; [reflexivity|].
    simpl. f_equal. apply IH. now injection Hlen.
Qed.

(** X12: when the service fails on an entry after answering all the
    entries before it, the loop raises that exception, having sent the
    requests of those entries and of the failing one and none for the
    entries after it. *)
Theorem append_embeddings_stops (done todo : list chunk) (c : chunk)
        (vs : list vector) (e : exn) (w : world vector) :
  Forall2 (fun c v =>
             exists others,
               openai_embeddings_create (lit "text-embedding-3-small")
                 (replace NEWLINE SPACE (chunk_content c))
               = Ok (v :: others))
          done vs ->
  openai_embeddings_create (lit "text-embedding-3-small")
    (replace NEWLINE SPACE (chunk_content c)) = Raise e ->
  exists w',
    append_embeddings openai_embeddings_create (done ++ c :: todo) w
    = (Raise e, w')
    /\ calls w'
       = calls w
         ++ map (fun c =>
                   EmbeddingsCreate vector (lit "text-embedding-3-small")
                     (replace NEWLINE SPACE (chunk_content c))) (done ++ [c])
    /\ embeddings w' = embeddings w.
Proof.
  intros H Hc.
  assert (Forall2 (fun c v =>
                     first_embedding openai_embeddings_create (chunk_content c)
                     = Ok v) done vs) as H'.
  { eapply Forall2_impl; [|exact H]. intros c0 v [others Hc0].
    unfold first_embedding. now rewrite Hc0. }
  eexists. split.
  - eapply append_embeddings_raise; [exact H'|].
    unfold first_embedding. now rewrite Hc.
  - split; reflexivity.
Qed.

Lemma record_call_calls (c1 c2 c3 : call vector) (w : world vector) :
  record_call c3 (record_call c2 (record_call c1 w))
  = record_calls [c1; c2; c3] w.
Proof.
  unfold record_calls, record_call. simpl. now rewrite <- !app_assoc.
Qed.

(** X13: with the embedding of the query obtained and at least three
    rows in the store, the synthesizer sends the embedding request, the
    top-3 query and one completion request whose three messages are the
    system message, the delimited input and the three nearest contents in
    retrieval order; it returns the first choice, raises [IndexError]
    when there is none and lets an exception of the service through. *)
Theorem process_input_answers (user_input : str) (w : world vector)
        (v : vector) (others : list vector) :
  openai_embeddings_create (lit "text-embedding-3-small")
                           (replace NEWLINE SPACE user_input)
  = Ok (v :: others) ->
  3 <= length (embeddings w) ->
  exists doc0 doc1 doc2,
    map (@row_content vector) (nearest3 distance leb v (embeddings w))
    = [doc0; doc1; doc2]
    /\ let messages :=
         [ {| role := lit "system"; message_content := system_message |};
           {| role := lit "user";
              message_content := lit "```" ++ user_input ++ lit "```" |};
           {| role := lit "assistant";
              message_content :=
                lit "Relevant Timescale case studies information: "
                ++ [NEWLINE] ++ [SPACE] ++ doc0 ++ [SPACE; NEWLINE; SPACE]
                ++ doc1 ++ [SPACE] ++ doc2 |} ] in
       process_input_with_retrieval distance leb openai_embeddings_create
         openai_chat_completions_create user_input w
       = (match openai_chat_completions_create (lit "gpt-4o") messages
                  0 1000 with
          | Ok (answer :: _) => Ok answer
          | Ok [] => Raise IndexError
          | Raise e => Raise e
          end,
          record_calls
            [ EmbeddingsCreate vector (lit "text-embedding-3-small")
                               (replace NEWLINE SPACE user_input);
              CursorExecute top3_statement [PVector v];
              ChatCompletionsCreate vector (lit "gpt-4o") messages 0 1000 ]
            w).
Proof.
  intros Hemb Hrows.
  pose proof (nearest3_length distance leb v (embeddings w)) as Hlen.
  rewrite Nat.min_l in Hlen by assumption.
  rewrite <- (length_map (@row_content vector)) in Hlen.
  destruct (map (@row_content vector) (nearest3 distance leb v (embeddings w)))
    as [|doc0 [|doc1 [|doc2 [|doc3 l]]]] eqn:Hdocs; try discriminate Hlen.
  exists doc0, doc1, doc2. split; [reflexivity|]. intros messages.
  unfold process_input_with_retrieval. unfold bind at 1.
  rewrite get_embeddings_run. unfold first_embedding. rewrite Hemb.
  unfold bind at 1. unfold get_top3_similar_docs, query_store.
  change (embeddings (record_call (embedding_request vector user_input) w))
    with (embeddings w).
  rewrite Hdocs.
  change (bind (index [doc0; doc1; doc2] 0) ?k ?w0) with (k doc0 w0).
  cbv beta.
  change (bind (index [doc0; doc1; doc2] 1) ?k ?w0) with (k doc1 w0).
  cbv beta.
  change (bind (index [doc0; doc1; doc2] 2) ?k ?w0) with (k doc2 w0).
  cbv beta. fold messages.
  rewrite get_completion_run. unfold embedding_request.
  now rewrite record_call_calls.
Qed.

Lemma process_input_no_embedding (user_input : str) (w : world vector)
      (e : exn) :
  first_embedding openai_embeddings_create user_input = Raise e ->
  process_input_with_retrieval distance leb openai_embeddings_create
    openai_chat_completions_create user_input w
  = (Raise e, record_call (embedding_request vector user_input) w).
Proof.
  intros H. unfold process_input_with_retrieval. unfold bind at 1.
  rewrite get_embeddings_run, H. reflexivity.
Qed.

(** X14: when the embedding of the query cannot be obtained, because the
    service raises or answers without data, the synthesizer raises after
    that one request: the store is not queried and no completion is
    requested. *)
Theorem process_input_embedding_failure (user_input : str) (w : world vector) :
  let response :=
    openai_embeddings_create (lit "text-embedding-3-small")
                             (replace NEWLINE SPACE user_input) in
  let run :=
    process_input_with_retrieval distance leb openai_embeddings_create
      openai_chat_completions_create user_input w in
  let sent :=
    record_call (EmbeddingsCreate vector (lit "text-embedding-3-small")
                                  (replace NEWLINE SPACE user_input)) w in
  (forall e, response = Raise e -> run = (Raise e, sent))
  /\ (response = Ok [] -> run = (Raise IndexError, sent)).
Proof.
  intros response run sent. split.
  - intros e He. apply process_input_no_embedding.
    unfold first_embedding. fold response. now rewrite He.
  - intros He. apply process_input_no_embedding.
    unfold first_embedding. fold response. now rewrite He.
Qed.

Lemma grows_by_refl (w : world vector) : grows_by 0 w w.
Proof.
  split; [reflexivity|]. split; [reflexivity|].
  exists []. now rewrite app_nil_r.
Qed.

Lemma grows_by_record_call (c : call vector) (w : world vector) :
  grows_by 1 w (record_call c w).
Proof.
  split; [reflexivity|]. split; [reflexivity|]. now exists [c].
Qed.

Lemma grows_by_bind {A B} (n k : nat) (m : M vector A) (f : A -> M vector B) :
  (forall w, grows_by n w (snd (m w))) ->
  (forall a w, grows_by k w (snd (f a w))) ->
  forall w, grows_by (n + k) w (snd (bind m f w)).
Proof.
  intros Hm Hf w. unfold bind. specialize (Hm w).
  destruct (m w) as [[a|e] w1]; cbn [snd] in *.
  - specialize (Hf a w1). destruct (f a w1) as [r w2]. cbn [snd] in *.
    destruct Hm as [E1 [P1 [l1 [C1 L1]]]], Hf as [E2 [P2 [l2 [C2 L2]]]].
    split; [congruence|]. split; [congruence|].
    exists (l1 ++ l2). rewrite C2, C1, <- app_assoc, length_app.
    split; [reflexivity|lia].
  - destruct Hm as [E1 [P1 [l1 [C1 L1]]]].
    split; [exact E1|]. split; [exact P1|]. exists l1. split; [exact C1|lia].
Qed.

Lemma grows_by_index {A} (l : list A) (i : nat) (w : world vector) :
  grows_by 0 w (snd (index l i w)).
Proof. unfold index. destruct (nth_error l i); apply grows_by_refl. Qed.

(** X15: the answer synthesizer and the context cells of the pgai
    notebook only read: whatever the services answer, the tables are as
    before, the calls made before are kept in order, and at most three,
    respectively two, calls are added. *)
Theorem retrieval_reads_only (user_input query : str) (w : world vector) :
  grows_by 3 w
    (snd (process_input_with_retrieval distance leb openai_embeddings_create
            openai_chat_completions_create user_input w))
  /\ grows_by 2 w
       (snd (answer_with_context distance leb ai_openai_embed
               ai_openai_chat_complete query w)).
Proof.
  split.
  - unfold process_input_with_retrieval.
    apply (grows_by_bind (n := 1) (k := 2)).
    + intros w0. rewrite get_embeddings_run. apply grows_by_record_call.
    + intros q. apply (grows_by_bind (n := 1) (k := 1)).
      * intros w0. apply grows_by_record_call.
      * intros docs. apply (grows_by_bind (n := 0) (k := 1)).
        { apply grows_by_index. }
        intros d0. apply (grows_by_bind (n := 0) (k := 1)).
        { apply grows_by_index. }
        intros d1. apply (grows_by_bind (n := 0) (k := 1)).
        { apply grows_by_index. }
        intros d2 w0. rewrite get_completion_run. apply grows_by_record_call.
  - unfold answer_with_context.
    apply (grows_by_bind (n := 1) (k := 1)).
    + unfold retrieve_context. apply (grows_by_bind (n := 1) (k := 0)).
      * intros w0. apply grows_by_record_call.
      * intros rows w0. apply grows_by_refl.
    + intros context w0. apply grows_by_record_call.
Qed.

Lemma inserted_rows_columns (last_id : nat) (data : list (data_tuple vector)) :
  map (@row_id vector) (inserted_rows last_id data)
  = seq (S last_id) (length data)
  /\ map (@row_title vector) (inserted_rows last_id data)
     = map (@data_title vector) data
  /\ map (@row_url vector) (inserted_rows last_id data)
     = map (@data_url vector) data
  /\ map (@row_content vector) (inserted_rows last_id data)
     = map (@data_content vector) data
  /\ map (@row_tokens vector) (inserted_rows last_id data)
     = map (@data_tokens vector) data
  /\ map (@row_embedding vector) (inserted_rows last_id data)
     = map (@data_embedding vector) data.
Proof.
  revert last_id. induction data as [|t data IH]; intros last_id.
  - repeat split.
  - destruct (IH (S last_id)) as [H1 [H2 [H3 [H4 [H5 H6]]]]].
    cbn [inserted_rows map length seq row_id row_title row_url row_content
         row_tokens row_embedding].
    rewrite H1, H2, H3, H4, H5, H6. repeat split.
Qed.

Lemma inserted_rows_length (last_id : nat) (data : list (data_tuple vector)) :
  length (inserted_rows last_id data) = length data.
Proof.
  revert last_id. induction data as [|t data IH]; intros last_id;
    [reflexivity|]. simpl. now rewrite IH.
Qed.

(** X16: the batch insertion keeps the rows of the table and adds, after
    them, one row per row of [df_new] in its order, with that row's
    title, url, content, token count and embedding, each in its own
    column, and with the next ids of the sequence; the count query then
    answers the old count plus the number of rows of [df_new]. *)
Theorem batch_insert_rows (df_new : list (embedded_chunk vector))
        (db : database vector) :
  let db' := execute_values_insert (data_list df_new) db in
  exists rows,
    embeddings (tables db') = embeddings (tables db) ++ rows
    /\ map (@row_id vector) rows
       = seq (S (embeddings_id_seq db)) (length df_new)
    /\ map (@row_title vector) rows
       = map (fun r => chunk_title (embedded r)) df_new
    /\ map (@row_url vector) rows
       = map (fun r => chunk_url (embedded r)) df_new
    /\ map (@row_content vector) rows
       = map (fun r => chunk_content (embedded r)) df_new
    /\ map (@row_tokens vector) rows
       = map (fun r => chunk_tokens (embedded r)) df_new
    /\ map (@row_embedding vector) rows
       = map (@embeddings_column vector) df_new
    /\ embeddings_id_seq db' = embeddings_id_seq db + length df_new
    /\ fst (count_records (tables db'))
       = Ok (length (embeddings (tables db)) + length df_new).
Proof.
  intros db'.
  exists (inserted_rows (embeddings_id_seq db) (data_list df_new)).
  destruct (inserted_rows_columns (embeddings_id_seq db) (data_list df_new))
    as [H1 [H2 [H3 [H4 [H5 H6]]]]].
  unfold data_list in *. rewrite length_map in H1.
  rewrite map_map in H2, H3, H4, H5, H6. cbn in H2, H3, H4, H5, H6.
  split; [reflexivity|].
  repeat (split; [assumption|]).
  split.
  - unfold db', execute_values_insert, data_list. cbn.
    now rewrite length_map.
  - unfold count_records, query_store, db', execute_values_insert. cbn.
    rewrite length_app, inserted_rows_length. unfold data_list.
    now rewrite length_map.
Qed.

Lemma combine_map_fst {A B} (l : list A) (l' : list B) :
  length l = length l' -> map fst (combine l l') = l.
Proof.
  revert l'. induction l as [|a l IH]; intros [|b l'] H;
    try discriminate; [reflexivity|].
  simpl. f_equal. apply IH. now injection H.
Qed.

Lemma combine_map_snd {A B} (l : list A) (l' : list B) :
  length l = length l' -> map snd (combine l l') = l'.
Proof.
  revert l'. induction l as [|a l IH]; intros [|b l'] H;
    try discriminate; [reflexivity|].
  simpl. f_equal. apply IH. now injection H.
Qed.

(** The run of [ingest] when every chunk gets its embedding. *)
Lemma ingest_ok get_encoding (df : list document) (vs : list vector)
      (db : database vector) :
  Forall2 (fun c v =>
             first_embedding openai_embeddings_create (chunk_content c) = Ok v)
          (chunk_dataframe get_encoding df) vs ->
  let chunks := chunk_dataframe get_encoding df in
  let rows :=
    inserted_rows (embeddings_id_seq db)
      (data_list (map (fun cv => {| embedded := fst cv;
                                    embeddings_column := snd cv |})
                      (combine chunks vs))) in
  ingest openai_embeddings_create get_encoding df db
  = (Ok tt,
     {| tables :=
          {| embeddings := embeddings (tables db) ++ rows;
             products_embedding := products_embedding (tables db);
             calls :=
               calls (tables db)
               ++ map (fun c => embedding_request vector (chunk_content c))
                      chunks |};
        embeddings_id_seq := embeddings_id_seq db + length chunks |})
  /\ map (@row_content vector) rows = map chunk_content chunks
  /\ map (@row_embedding vector) rows = vs
  /\ length rows = length chunks.
Proof.
  intros H chunks rows. pose proof (Forall2_length H) as Hlen.
  fold chunks in Hlen.
  destruct (inserted_rows_columns (embeddings_id_seq db)
              (data_list (map (fun cv => {| embedded := fst cv;
                                            embeddings_column := snd cv |})
                              (combine chunks vs))))
    as [_ [_ [_ [H4 [_ H6]]]]].
  fold rows in H4, H6. unfold data_list in H4, H6.
  rewrite !map_map in H4, H6. cbn in H4, H6.
  assert (length rows = length chunks) as Hrows.
  { unfold rows. rewrite inserted_rows_length. unfold data_list.
    rewrite !length_map, length_combine. lia. }
  split; [|split; [|split]].
  - unfold ingest. cbv zeta.
    rewrite (append_embeddings_ok (tables db) H).
    unfold execute_values_insert.
    cbn [tables embeddings products_embedding calls embeddings_id_seq
         record_calls].
    fold chunks. fold rows. f_equal. f_equal.
    unfold data_list. rewrite !length_map, length_combine. lia.
  - rewrite H4, <- (map_map fst chunk_content). f_equal.
    now apply combine_map_fst.
  - rewrite H6, <- (map_map snd (fun x => x)), map_id.
    now apply combine_map_snd.
  - exact Hrows.
Qed.

(** X17: when the service answers every chunk, ingesting a dataframe
    adds one row per chunk, in the order of the chunks, each with the
    content of its chunk and the embedding the service gave for it; the
    row count grows by the number of chunks of the dataframe. *)
Theorem ingest_adds_chunks get_encoding (df : list document)
        (vs : list vector) (db : database vector) :
  Forall2 (fun c v =>
             exists others,
               openai_embeddings_create (lit "text-embedding-3-small")
                 (replace NEWLINE SPACE (chunk_content c))
               = Ok (v :: others))
          (chunk_dataframe get_encoding df) vs ->
  exists db' rows,
    ingest openai_embeddings_create get_encoding df db = (Ok tt, db')
    /\ embeddings (tables db') = embeddings (tables db) ++ rows
    /\ map (@row_content vector) rows
       = map chunk_content (chunk_dataframe get_encoding df)
    /\ map (@row_embedding vector) rows = vs
    /\ fst (count_records (tables db'))
       = Ok (length (embeddings (tables db))
             + length (chunk_dataframe get_encoding df)).
Proof.
  intros H.
  assert (Forall2 (fun c v =>
                     first_embedding openai_embeddings_create (chunk_content c)
                     = Ok v) (chunk_dataframe get_encoding df) vs) as H'.
  { eapply Forall2_impl; [|exact H]. intros c v [others Hc].
    unfold first_embedding. now rewrite Hc. }
  destruct (ingest_ok get_encoding df db H') as [Hrun [Hc [He Hl]]].
  eexists. eexists. split; [exact Hrun|].
  split; [reflexivity|]. split; [exact Hc|]. split; [exact He|].
  unfold count_records, query_store. cbn. now rewrite length_app, Hl.
Qed.

(** X18: when the service fails on a chunk, ingesting raises that
    exception and inserts nothing: the table and the id sequence are as
    before, whatever embeddings were obtained for the chunks before. *)
Theorem ingest_failure_inserts_nothing get_encoding (df : list document)
        (done todo : list chunk) (c : chunk) (vs : list vector) (e : exn)
        (db : database vector) :
  chunk_dataframe get_encoding df = done ++ c :: todo ->
  Forall2 (fun c v =>
             exists others,
               openai_embeddings_create (lit "text-embedding-3-small")
                 (replace NEWLINE SPACE (chunk_content c))
               = Ok (v :: others))
          done vs ->
  openai_embeddings_create (lit "text-embedding-3-small")
    (replace NEWLINE SPACE (chunk_content c)) = Raise e ->
  exists db',
    ingest openai_embeddings_create get_encoding df db = (Raise e, db')
    /\ embeddings (tables db') = embeddings (tables db)
    /\ embeddings_id_seq db' = embeddings_id_seq db
    /\ length (calls (tables db'))
       = length (calls (tables db)) + length done + 1.
Proof.
  intros Hdf H Hc.
  assert (Forall2 (fun c v =>
                     first_embedding openai_embeddings_create (chunk_content c)
                     = Ok v) done vs) as H'.
  { eapply Forall2_impl; [|exact H]. intros c0 v [others Hc0].
    unfold first_embedding. now rewrite Hc0. }
  assert (first_embedding openai_embeddings_create (chunk_content c) = Raise e)
    as Hc' by (unfold first_embedding; now rewrite Hc).
  unfold ingest. cbv zeta. rewrite Hdf.
  erewrite append_embeddings_raise; [|exact H'|exact Hc'].
  eexists. split; [reflexivity|]. cbn.
  split; [reflexivity|]. split; [reflexivity|].
  rewrite length_app, length_map, length_app. simpl. lia.
Qed.

(** X19: ingesting the same dataframe a second time duplicates its
    rows: the table then holds the rows of the first run followed by as
    many rows with the same contents and embeddings, under new ids. *)
Theorem reingest_duplicates get_encoding (df : list document)
        (vs : list vector) (db : database vector) :
  Forall2 (fun c v =>
             exists others,
               openai_embeddings_create (lit "text-embedding-3-small")
                 (replace NEWLINE SPACE (chunk_content c))
               = Ok (v :: others))
          (chunk_dataframe get_encoding df) vs ->
  exists db1 db2 rows1 rows2,
    ingest openai_embeddings_create get_encoding df db = (Ok tt, db1)
    /\ ingest openai_embeddings_create get_encoding df db1 = (Ok tt, db2)
    /\ embeddings (tables db2) = embeddings (tables db) ++ rows1 ++ rows2
    /\ map (@row_content vector) rows1 = map (@row_content vector) rows2
    /\ map (@row_embedding vector) rows1 = map (@row_embedding vector) rows2
    /\ length rows1 = length (chunk_dataframe get_encoding df)
    /\ (forall r1 r2, In r1 rows1 -> In r2 rows2 -> row_id r1 < row_id r2).
Proof.
  intros H.
  assert (Forall2 (fun c v =>
                     first_embedding openai_embeddings_create (chunk_content c)
                     = Ok v) (chunk_dataframe get_encoding df) vs) as H'.
  { eapply Forall2_impl; [|exact H]. intros c v [others Hc].
    unfold first_embedding. now rewrite Hc. }
  pose proof (ingest_ok get_encoding df db H') as P1. cbv zeta in P1.
  set (rows1 := inserted_rows (embeddings_id_seq db) _) in P1.
  destruct P1 as [Hrun1 [Hc1 [He1 Hl1]]].
  set (db1 := {| tables := _; embeddings_id_seq := _ |}) in Hrun1.
  pose proof (ingest_ok get_encoding df db1 H') as P2. cbv zeta in P2.
  set (rows2 := inserted_rows (embeddings_id_seq db1) _) in P2.
  destruct P2 as [Hrun2 [Hc2 [He2 Hl2]]].
  set (db2 := {| tables := _; embeddings_id_seq := _ |}) in Hrun2.
  exists db1, db2, rows1, rows2.
  split; [exact Hrun1|]. split; [exact Hrun2|].
  split.
  { unfold db2, db1.
    cbn [tables embeddings products_embedding calls embeddings_id_seq].
    now rewrite <- app_assoc. }
  split; [now rewrite Hc1, Hc2|]. split; [now rewrite He1, He2|].
  split; [exact Hl1|].
  intros r1 r2 Hr1 Hr2.
  apply (in_map (@row_id vector)) in Hr1, Hr2.
  unfold rows1 in Hr1. unfold rows2 in Hr2.
  rewrite (proj1 (inserted_rows_columns _ _)) in Hr1.
  rewrite (proj1 (inserted_rows_columns _ _)) in Hr2.
  apply in_seq in Hr1, Hr2. unfold db1 in Hr2.
  cbn [embeddings_id_seq] in Hr2.
  unfold data_list in Hr1. rewrite !length_map, length_combine in Hr1.
  lia.
Qed.

(** X20: after a dataframe has been ingested into an empty table, the
    top-3 query answers, for any query vector, with the contents of
    [min 3 n] of its [n] chunks. *)
Theorem ingest_then_top3 get_encoding (df : list document)
        (vs : list vector) (db : database vector) (q : vector) :
  embeddings (tables db) = [] ->
  Forall2 (fun c v =>
             exists others,
               openai_embeddings_create (lit "text-embedding-3-small")
                 (replace NEWLINE SPACE (chunk_content c))
               = Ok (v :: others))
          (chunk_dataframe get_encoding df) vs ->
  exists db' docs,
    ingest openai_embeddings_create get_encoding df db = (Ok tt, db')
    /\ fst (get_top3_similar_docs distance leb q (tables db')) = Ok docs
    /\ length docs
       = Nat.min 3 (length (chunk_dataframe get_encoding df))
    /\ incl docs (map chunk_content (chunk_dataframe get_encoding df)).
Proof.
  intros Hempty H.
  assert (Forall2 (fun c v =>
                     first_embedding openai_embeddings_create (chunk_content c)
                     = Ok v) (chunk_dataframe get_encoding df) vs) as H'.
  { eapply Forall2_impl; [|exact H]. intros c v [others Hc].
    unfold first_embedding. now rewrite Hc. }
  destruct (ingest_ok get_encoding df db H') as [Hrun [Hc [_ Hl]]].
  eexists. eexists. split; [exact Hrun|].
  unfold get_top3_similar_docs, query_store. cbn [fst tables embeddings].
  rewrite Hempty. cbn [app]. split; [reflexivity|]. split.
  - now rewrite length_map, nearest3_length, Hl.
  - rewrite <- Hc. apply incl_map. unfold nearest3.
    intros r Hr. apply firstn_incl in Hr.
    eapply Permutation_in; [apply order_by_perm|exact Hr].
Qed.

(** X21: the text of a chunk cut from a content of more than 512 tokens
    has no whitespace but single spaces, so the embedding adapter sends
    it to the service as it is. *)
Theorem split_chunk_sent_verbatim get_encoding (d : document)
        (w : world vector) :
  512 < num_tokens_from_string get_encoding (Some (content d)) cl100k_base ->
  Forall (fun c =>
            Forall (fun ch => isspace ch = true -> ch = SPACE)
                   (chunk_content c)
            /\ snd (get_embeddings openai_embeddings_create (chunk_content c) w)
               = record_call
                   (EmbeddingsCreate vector (lit "text-embedding-3-small")
                                     (chunk_content c)) w)
         (chunk_document get_encoding d []).
Proof.
  intros Hbig.
  rewrite (chunk_document_oversized get_encoding d []) by assumption.
  apply Forall_forall. intros c Hc.
  apply in_flat_map in Hc as [g [Hg Hc]].
  apply in_emit in Hc as [-> _].
  apply in_word_groups in Hg as [_ [Hw _]].
  assert (Forall (fun ch => isspace ch = true -> ch = SPACE)
                 (join [SPACE] g)) as Hsp.
  { clear -Hw. induction Hw as [|x g [_ Hx] Hg IH]; [constructor|].
    assert (Forall (fun ch => isspace ch = true -> ch = SPACE) x) as Hx'.
    { eapply Forall_impl; [|exact Hx]. intros ch Hch Hs. congruence. }
    destruct g as [|y g]; [exact Hx'|].
    change (join [SPACE] (x :: y :: g))
      with (x ++ [SPACE] ++ join [SPACE] (y :: g)).
    apply Forall_app. split; [exact Hx'|].
    constructor; [reflexivity|exact IH]. }
  split; [exact Hsp|].
  assert (replace NEWLINE SPACE (join [SPACE] g) = join [SPACE] g) as Hid.
  { unfold replace. transitivity (map (fun ch : codepoint => ch) (join [SPACE] g));
      [|apply map_id].
    apply map_ext_in. intros ch Hch.
    rewrite Forall_forall in Hsp. specialize (Hsp ch Hch).
    destruct (N.eqb ch NEWLINE) eqn:E; [|reflexivity].
    apply N.eqb_eq in E. subst ch. specialize (Hsp eq_refl). discriminate Hsp. }
  rewrite get_embeddings_run. unfold embedding_request.
  cbn [snd chunk_content chunk_of_group]. now rewrite Hid.
Qed.

Lemma nearest3_chunks_length (q : vector) (view : list (embedding_row vector)) :
  length (nearest3_chunks distance leb q view) = Nat.min 3 (length view).
Proof. unfold nearest3_chunks. now rewrite length_firstn, order_by_length. Qed.

Lemma join_nil_iff (sep : str) (l : list str) :
  Forall (fun x => x <> []) l -> (join sep l = [] <-> l = []).
Proof.
  intros H. split; [|intros ->; reflexivity].
  destruct H as [|x l Hx _]; [reflexivity|]. intros E. exfalso.
  destruct x as [|c x]; [now apply Hx|]. simpl in E.
  destruct l; discriminate E.
Qed.

(** X22: when the query has been embedded, the retrieval cell leaves in
    [context] the texts of the [min 3 n] nearest of the [n] rows of the
    view, each after [Chunk: ] and two newlines between them, after one
    statement; the context is empty exactly when the view is. *)
Theorem retrieve_context_rows (query : str) (w : world vector) (q : vector) :
  ai_openai_embed (lit "text-embedding-3-small") query = Ok q ->
  let rows := nearest3_chunks distance leb q (products_embedding w) in
  retrieve_context distance leb ai_openai_embed query w
  = (Ok (join [NEWLINE; NEWLINE]
              (map (fun r => lit "Chunk: " ++ chunk_text r) rows)),
     record_call (CursorExecute retrieve_statement [PText vector query]) w)
  /\ length rows = Nat.min 3 (length (products_embedding w))
  /\ incl rows (products_embedding w)
  /\ (fst (retrieve_context distance leb ai_openai_embed query w) = Ok []
      <-> products_embedding w = []).
Proof.
  intros Hemb rows.
  assert (retrieve_context distance leb ai_openai_embed query w
          = (Ok (join [NEWLINE; NEWLINE]
                      (map (fun r => lit "Chunk: " ++ chunk_text r) rows)),
             record_call (CursorExecute retrieve_statement [PText vector query])
                         w)) as Hrun.
  { unfold retrieve_context, bind, query_store. rewrite Hemb.
    unfold ret. now rewrite map_map. }
  pose proof (nearest3_chunks_length q (products_embedding w)) as Hlen.
  fold rows in Hlen.
  split; [exact Hrun|]. split; [exact Hlen|]. split.
  - intros r Hr. apply firstn_incl in Hr.
    eapply Permutation_in; [apply order_by_perm|exact Hr].
  - rewrite Hrun. cbn [fst]. split.
    + intros E. injection E as E. apply join_nil_iff in E.
      * apply map_eq_nil in E. rewrite E in Hlen. simpl in Hlen.
        destruct (products_embedding w); [reflexivity|]. simpl in Hlen. lia.
      * apply Forall_forall. intros x Hx.
        apply in_map_iff in Hx as [r [<- _]]. discriminate.
    + intros E. rewrite E in Hlen. simpl in Hlen.
      destruct rows; [reflexivity|discriminate Hlen].
Qed.

(** X23: the two context cells in a row.  If the query cannot be
    embedded the exception comes out after the one retrieval statement
    and no completion is asked for.  Otherwise the completion is asked
    with the prompt [Query: ... Context: ...] built from the retrieved
    context, and the answer is the first choice, or null, without an
    exception, when there is none. *)
Theorem answer_with_context_outcomes (query : str) (w : world vector) :
  (forall e,
      ai_openai_embed (lit "text-embedding-3-small") query = Raise e ->
      answer_with_context distance leb ai_openai_embed ai_openai_chat_complete
        query w
      = (Raise e,
         record_call (CursorExecute retrieve_statement [PText vector query]) w))
  /\ (forall q,
        ai_openai_embed (lit "text-embedding-3-small") query = Ok q ->
        let context :=
          join [NEWLINE; NEWLINE]
               (map (fun r => lit "Chunk: " ++ chunk_text r)
                    (nearest3_chunks distance leb q (products_embedding w))) in
        let prompt :=
          lit "Query: " ++ query ++ [NEWLINE] ++ lit "Context: " ++ context in
        answer_with_context distance leb ai_openai_embed
          ai_openai_chat_complete query w
        = (match ai_openai_chat_complete
                   (lit "gpt-4o-mini")
                   [ {| role := lit "system";
                        message_content := lit "you are a helpful assistant" |};
                     {| role := lit "user"; message_content := prompt |} ] with
           | Ok choices => Ok (nth_error choices 0)
           | Raise e => Raise e
           end,
           record_calls
             [ CursorExecute retrieve_statement [PText vector query];
               CursorExecute generate_statement [PText vector prompt] ] w)).
Proof.
  split.
  - intros e He. unfold answer_with_context, retrieve_context, bind, query_store.
    now rewrite He.
  - intros q Hq context prompt.
    unfold answer_with_context, retrieve_context, bind, query_store.
    rewrite Hq. unfold ret, generate_response, query_store.
    rewrite map_map. fold context. fold prompt.
    f_equal. unfold record_calls, record_call. cbn. now rewrite <- app_assoc.
Qed.

End PipelineFacts.

(** ** Further properties: the source-table ingestion of the pgai notebook *)

Lemma insert_subset_data_output_app (a b : list product) :
  insert_subset_data_output (a ++ b)
  = insert_subset_data_output a ++ insert_subset_data_output b.
Proof. apply flat_map_app. Qed.

(** X24: the two subsets are the first 250 products and the rest: put
    together they are the catalogue, and the text written for the first
    followed by the text written for the second is the text written for
    the whole catalogue.  When no field holds anything COPY would
    escape, each subset and the whole catalogue reach the table as they
    are, so the two insertions store what one insertion of the catalogue
    would. *)
Theorem subsets_cover_catalogue (products : list product) :
  subset_1 products ++ subset_2 products = products
  /\ length (subset_1 products) = Nat.min 250 (length products)
  /\ insert_subset_data_output products
     = insert_subset_data_output (subset_1 products)
       ++ insert_subset_data_output (subset_2 products)
  /\ (Forall copy_safe_product products ->
      insert_subset_data (subset_1 products) = CopyOk (subset_1 products)
      /\ insert_subset_data (subset_2 products) = CopyOk (subset_2 products)
      /\ insert_subset_data products
         = CopyOk (subset_1 products ++ subset_2 products)).
Proof.
  assert (subset_1 products = firstn 250 products) as H1.
  { unfold subset_1, slice. now rewrite Nat.sub_0_r. }
  assert (subset_2 products = skipn 250 products) as H2.
  { unfold subset_2, slice. apply firstn_all2. now rewrite length_skipn. }
  assert (subset_1 products ++ subset_2 products = products) as Hall.
  { rewrite H1, H2. apply firstn_skipn. }
  split; [exact Hall|]. split; [rewrite H1; apply length_firstn|].
  split; [now rewrite <- insert_subset_data_output_app, Hall|].
  intros Hsafe.
  assert (Forall copy_safe_product (subset_1 products)
          /\ Forall copy_safe_product (subset_2 products)) as [Hs1 Hs2].
  { rewrite <- Hall in Hsafe. now apply Forall_app in Hsafe. }
  split; [apply (insert_subset_data_safe Hs1)|].
  split; [apply (insert_subset_data_safe Hs2)|].
  rewrite Hall. apply (insert_subset_data_safe Hsafe).
Qed.

Lemma read_rows_length (ncols : nat) (sep : codepoint) (lines : list str)
      (rows : list (list (option str))) :
  read_rows ncols sep lines = CopyOk rows -> length rows = length lines.
Proof.
  revert rows. induction lines as [|line lines IH]; intros rows H.
  - injection H as <-. reflexivity.
  - cbn [read_rows] in H.
    destruct (negb (forallb valid_char line)); [discriminate H|].
    destruct (read_fields sep line) as [row| |]; try discriminate H.
    destruct (length row =? ncols); [|discriminate H].
    destruct (read_rows ncols sep lines) as [rows'| |]; try discriminate H.
    injection H as <-. cbn [length]. now rewrite (IH rows' eq_refl).
Qed.

Lemma products_of_rows_length (rows : list (list (option str)))
      (stored : list product) :
  products_of_rows rows = Some stored -> length stored = length rows.
Proof.
  revert stored. induction rows as [|row rows IH]; intros stored H.
  - injection H as <-. reflexivity.
  - cbn [products_of_rows] in H.
    destruct (product_of_row row) as [p|]; [|discriminate H].
    destruct (products_of_rows rows) as [ps|]; [|discriminate H].
    injection H as <-. cbn [length]. now rewrite (IH ps eq_refl).
Qed.

(** The rows COPY stores are as many as the lines it read. *)
Lemma insert_subset_data_length (subset stored : list product) :
  insert_subset_data subset = CopyOk stored ->
  length stored
  = length (fst (read_lines EOL_UNKNOWN Plain []
                   (insert_subset_data_output subset))).
Proof.
  unfold insert_subset_data, copy_read. cbv zeta.
  destruct (read_rows 2 TAB
              (fst (read_lines EOL_UNKNOWN Plain []
                      (insert_subset_data_output subset))))
    as [rows| |] eqn:Hrows; try discriminate.
  destruct (snd (read_lines EOL_UNKNOWN Plain []
                   (insert_subset_data_output subset))); try discriminate.
  destruct (products_of_rows rows) as [ps|] eqn:Hps; [|discriminate].
  intros H. injection H as <-.
  rewrite (products_of_rows_length _ Hps). apply (read_rows_length _ _ _ Hrows).
Qed.

(** X25: when no name and no description holds a backslash or a
    carriage return, COPY reads the payload to its end as one line per
    product and one more for every newline inside a name or a
    description; and when the COPY succeeds the table has gained that
    many rows, more than there are products as soon as a field holds a
    newline. *)
Theorem copy_line_count (subset : list product) :
  Forall escape_free_product subset ->
  let r := read_lines EOL_UNKNOWN Plain [] (insert_subset_data_output subset) in
  length (fst r) = length subset + list_sum (map inner_newlines subset)
  /\ snd r = ReadToEnd
  /\ (forall stored,
        insert_subset_data subset = CopyOk stored ->
        length stored
        = length subset + list_sum (map inner_newlines subset)).
Proof.
  intros H.
  assert (forall eol, eol = EOL_UNKNOWN \/ eol = EOL_NL ->
            length (fst (read_lines eol Plain []
                           (insert_subset_data_output subset)))
            = length subset + list_sum (map inner_newlines subset)
            /\ snd (read_lines eol Plain []
                      (insert_subset_data_output subset)) = ReadToEnd)
    as Hgen.
  { induction H as [|p subset [Hn Hd] _ IH]; intros eol Heol.
    - split; reflexivity.
    - assert (Forall escape_free (product_line p)) as Hline.
      { unfold product_line. apply Forall_app. split; [exact Hn|].
        constructor; [split; discriminate|exact Hd]. }
      destruct (read_lines_count [] (insert_subset_data_output subset)
                  Heol Hline) as [lines [Hlen Hrun]].
      rewrite output_cons, Hrun. cbn [fst snd].
      destruct (IH EOL_NL (or_intror eq_refl)) as [IHlen IHend].
      rewrite length_app, Hlen, IHlen, product_line_newlines.
      split; [simpl; lia|exact IHend]. }
  intros r. destruct (Hgen EOL_UNKNOWN (or_introl eq_refl)) as [Hlen Hend].
  split; [exact Hlen|]. split; [exact Hend|].
  intros stored Hstored.
  rewrite (insert_subset_data_length _ Hstored). exact Hlen.
Qed.

Lemma copy_line_count_witness :
  Forall escape_free_product [two_row_product]
  /\ insert_subset_data [two_row_product]
     = CopyOk [ {| name := lit "a"; description := lit "b" |};
                {| name := lit "c"; description := lit "d" |} ]
  /\ (let r := read_lines EOL_UNKNOWN Plain []
                          (insert_subset_data_output [two_row_product]) in
      length (fst r) = 1 + list_sum (map inner_newlines [two_row_product])
      /\ snd r = ReadToEnd
      /\ (forall stored,
            insert_subset_data [two_row_product] = CopyOk stored ->
            length stored
            = 1 + list_sum (map inner_newlines [two_row_product]))).
Proof.
  assert (Forall escape_free_product [two_row_product]) as H
      by (repeat constructor; discriminate).
  split; [exact H|]. split; [vm_compute; reflexivity|].
  exact (copy_line_count H).
Defined.

(** ** The further properties on concrete inputs *)

Lemma short_post_chunks :
  chunk_dataframe unit_encoding [short_post] = [short_chunk].
Proof. vm_compute. reflexivity. Defined.

Lemma short_chunk_embedded :
  Forall2 (fun c v =>
             exists others,
               length_embedding (lit "text-embedding-3-small")
                 (replace NEWLINE SPACE (chunk_content c))
               = Ok (v :: others))
          [short_chunk] [18].
Proof. constructor; [exists []; reflexivity|constructor]. Defined.

Lemma short_chunk_accepted :
  Forall2 (fun c v =>
             exists others,
               refuses_empty (lit "text-embedding-3-small")
                 (replace NEWLINE SPACE (chunk_content c))
               = Ok (v :: others))
          [short_chunk] [18].
Proof. constructor; [exists []; reflexivity|constructor]. Defined.

Lemma append_embeddings_complete_witness :
  exists df_new w',
    append_embeddings length_embedding [short_chunk] empty_store
    = (Ok df_new, w')
    /\ map (@embeddings_column nat) df_new = [18].
Proof.
  destruct (append_embeddings_complete length_embedding empty_store
              short_chunk_embedded)
    as [df_new [w' [Hrun [_ [Hvs _]]]]].
  exists df_new, w'. split; assumption.
Defined.

Lemma append_embeddings_stops_witness :
  exists w',
    append_embeddings refuses_empty
      ([short_chunk] ++ empty_chunk :: [short_chunk]) empty_store
    = (Raise ExternalServiceError, w')
    /\ embeddings w' = embeddings empty_store.
Proof.
  destruct (append_embeddings_stops refuses_empty [short_chunk] empty_chunk
              (e := ExternalServiceError) empty_store short_chunk_accepted
              eq_refl)
    as [w' [Hrun [_ Hemb]]].
  exists w'. split; assumption.
Defined.

Lemma process_input_answers_witness :
  exists doc0 doc1 doc2,
    map (@row_content nat) (nearest3 gap Nat.leb 10 (embeddings store_of_four))
    = [doc0; doc1; doc2].
Proof.
  assert (3 <= length (embeddings store_of_four)) as Hrows by (simpl; lia).
  destruct (process_input_answers gap Nat.leb (fun _ _ => Ok [10])
              fixed_completion (lit "q") store_of_four (v := 10)
              (others := []) eq_refl Hrows)
    as [doc0 [doc1 [doc2 [Hdocs _]]]].
  exists doc0, doc1, doc2. exact Hdocs.
Defined.

Lemma short_post_embedded :
  Forall2 (fun c v =>
             exists others,
               length_embedding (lit "text-embedding-3-small")
                 (replace NEWLINE SPACE (chunk_content c))
               = Ok (v :: others))
          (chunk_dataframe unit_encoding [short_post]) [18].
Proof. rewrite short_post_chunks. exact short_chunk_embedded. Defined.

Lemma ingest_adds_chunks_witness :
  exists db',
    ingest length_embedding unit_encoding [short_post] empty_database
    = (Ok tt, db')
    /\ fst (count_records (tables db'))
       = Ok (length (embeddings (tables empty_database))
             + length (chunk_dataframe unit_encoding [short_post])).
Proof.
  destruct (ingest_adds_chunks length_embedding unit_encoding [short_post]
              empty_database short_post_embedded)
    as [db' [rows [Hrun [_ [_ [_ Hcount]]]]]].
  exists db'. split; assumption.
Defined.

Lemma ingest_failure_inserts_nothing_witness :
  exists db',
    ingest refuses_empty unit_encoding [short_post; empty_post] empty_database
    = (Raise ExternalServiceError, db')
    /\ embeddings (tables db') = embeddings (tables empty_database).
Proof.
  assert (chunk_dataframe unit_encoding [short_post; empty_post]
          = [short_chunk] ++ empty_chunk :: []) as Hdf
      by (vm_compute; reflexivity).
  destruct (ingest_failure_inserts_nothing refuses_empty unit_encoding
              [short_post; empty_post] [] empty_chunk
              (e := ExternalServiceError) empty_database Hdf
              short_chunk_accepted eq_refl)
    as [db' [Hrun [Hemb _]]].
  exists db'. split; assumption.
Defined.

Lemma reingest_duplicates_witness :
  exists db1 db2 rows1 rows2,
    ingest length_embedding unit_encoding [short_post] empty_database
    = (Ok tt, db1)
    /\ ingest length_embedding unit_encoding [short_post] db1 = (Ok tt, db2)
    /\ embeddings (tables db2)
       = embeddings (tables empty_database) ++ rows1 ++ rows2
    /\ map (@row_content nat) rows1 = map (@row_content nat) rows2.
Proof.
  destruct (reingest_duplicates length_embedding unit_encoding [short_post]
              empty_database short_post_embedded)
    as [db1 [db2 [rows1 [rows2 [H1 [H2 [H3 [H4 _]]]]]]]].
  exists db1, db2, rows1, rows2. repeat split; assumption.
Defined.

Lemma ingest_then_top3_witness :
  exists db' docs,
    ingest length_embedding unit_encoding [short_post] empty_database
    = (Ok tt, db')
    /\ fst (get_top3_similar_docs gap Nat.leb 7 (tables db')) = Ok docs
    /\ length docs
       = Nat.min 3 (length (chunk_dataframe unit_encoding [short_post])).
Proof.
  destruct (ingest_then_top3 gap Nat.leb length_embedding unit_encoding
              [short_post] empty_database 7 eq_refl short_post_embedded)
    as [db' [docs [H1 [H2 [H3 _]]]]].
  exists db', docs. repeat split; assumption.
Defined.

Lemma split_chunk_sent_verbatim_witness :
  Forall (fun c =>
            Forall (fun ch => isspace ch = true -> ch = SPACE)
                   (chunk_content c)
            /\ snd (get_embeddings length_embedding (chunk_content c)
                                   empty_store)
               = record_call
                   (EmbeddingsCreate nat (lit "text-embedding-3-small")
                                     (chunk_content c)) empty_store)
         (chunk_document unit_encoding two_thousand_words []).
Proof.
  apply (split_chunk_sent_verbatim length_embedding unit_encoding
           two_thousand_words empty_store).
  apply Nat.ltb_lt. vm_compute. reflexivity.
Defined.

Lemma retrieve_context_rows_witness :
  fst (retrieve_context gap Nat.leb length_of_query (lit "socks") view_of_two)
  = Ok (lit "Chunk: cotton t-shirt" ++ [NEWLINE; NEWLINE]
        ++ lit "Chunk: wool socks").
Proof.
  rewrite (proj1 (retrieve_context_rows gap Nat.leb length_of_query
                    (lit "socks") view_of_two (q := 5) eq_refl)).
  vm_compute. reflexivity.
Defined.
